(** * Session manager and games store of the inventory front end

    A shallow embedding of [src/contexts/gamesContext.tsx] (the games
    provider) and of the login provider that accompanies it, with the
    properties of the retry primitive [withTokenRefresh] and of the four
    store operations.

    JavaScript runs one job to completion before the next one starts: a
    callback attached to a promise with [.then] or [.catch] never runs
    inside the synchronous code that attached it.  The embedding keeps the
    two phases apart: a guarded call first runs its synchronous part, which
    only registers reactions, and the reactions run afterwards.

    Conventions.  Numbers are integers.  State held with [useState] is a
    field of a record and its setter a function on the record.  What the
    providers do to their collaborators (identity provider, API client,
    page context, callbacks of the presentation layer) is appended to a
    list, oldest first.  Callbacks of the presentation layer do not throw.
    The console output of development builds is left out.  The session a
    call sees is the one of the render its closure was built in. *)

From stdpp Require Import base numbers list strings gmap pretty.

Open Scope string_scope.
Open Scope Z_scope.

(** ** Values exchanged with the remote API *)

(** Modelled from the spec: the resources of [types/apiData], which is not
    among the sources ("[id]: server-assigned unique key", "[attributes]:
    server-defined payload").  A resource is a JSON object; these are the
    values of its attributes. *)
Inductive Value :=
| Num (n : Z)
| Str (s : string)
| Bool (b : bool)
| Strs (l : list string)
| Null.

(** A JSON object; [o !! k = None] is JavaScript's [undefined]. *)
Abbreviation Object := (gmap string Value).

(** [ResponseGame] and [RequestGame] are objects. *)
Abbreviation Game := (gmap string Value).
Abbreviation RequestGame := (gmap string Value).

(** [k in o] *)
Definition has_key (k : string) (o : Object) : bool :=
  bool_decide (is_Some (o !! k)).

(** [el.id === gameId], with [gameId] a number: strict equality holds only
    when the property is a number, the same one. *)
Definition id_is (gameId : Z) (el : Game) : bool :=
  match el !! "id" with
  | Some (Num n) => bool_decide (n = gameId)
  | _ => false
  end.

(** The numeric id an entry carries, when it carries one. *)
Definition game_id (el : Game) : option Z :=
  match el !! "id" with
  | Some (Num n) => Some n
  | _ => None
  end.

(** Modelled from the spec: the body of a response of [utils/api/simApi],
    which is not among the sources: one object, or an array of them
    ([Array.isArray] tells them apart). *)
Inductive Body :=
| Obj (o : Object)
| Arr (l : list Game).

(** Modelled from the spec: what a call of the API client resolves with,
    "[{status, body}] on completion". *)
Record Response (B : Type) := mkResponse { status : Z; json : B }.
Arguments mkResponse {B} _ _.
Arguments status {B} _.
Arguments json {B} _.

(** Modelled from the spec: [ApiError] of [types/errors], which is not
    among the sources, "a classified failure [{code, message}] where
    [message] is either a string or a list of strings". *)
Inductive Message :=
| Text (s : string)
| Lines (l : list string).

Record ApiError := mkApiError { code : Z; message : Message }.

(** How a synchronous call completes. *)
Inductive Completion :=
| Normal
| Throw (e : ApiError).

(** How a promise ends. *)
Inductive Settlement (R : Type) :=
| Fulfilled (r : R)
| Rejected (e : ApiError)
| Unsettled.
Arguments Fulfilled {R} _.
Arguments Rejected {R} _.
Arguments Unsettled {R}.

(** What one call of the API client of [utils/api/simApi] does: it raises
    to its caller, or it returns a promise. *)
Inductive ApiResult (R : Type) :=
| Raises (e : ApiError)
| Returns (p : Settlement R).
Arguments Raises {R} _.
Arguments Returns {R} _.

(** ** The login provider *)

(** Modelled from the spec: the user object of the identity provider,
    with "[getCredential(forceRefresh: bool) -> Promise<credential>]".
    [getIdToken forceRefresh] is the value the promise is fulfilled with,
    [None] when it is rejected. *)
Record User := mkUser { uid : string; getIdToken : bool -> option string }.

(** Calls that leave the login provider, in the order they are made.
    [Invoked t] records one call [fn(t)] of the guarded operation. *)
Inductive Effect :=
| Invoked (idToken : string)
| GetIdToken (forceRefresh : bool)
| SetToken (idToken : string)
| SignOut.

#[global] Instance Effect_eq_dec : EqDecision Effect.
Proof. solve_decision. Defined.

Record Session := mkSession {
  user : option User;
  token : option string;
  effects : list Effect
}.

Definition emit (ev : Effect) (s : Session) : Session :=
  mkSession (user s) (token s) (effects s ++ [ev]).

(** [setToken(idToken)] *)
Definition setToken (idToken : string) (s : Session) : Session :=
  emit (SetToken idToken) (mkSession (user s) (Some idToken) (effects s)).

(** [!token]: [null] and the empty string are falsy. *)
Definition no_token (t : option string) : bool :=
  match t with
  | None => true
  | Some s => bool_decide (s = "")
  end.

(** [!user] *)
Definition no_user (u : option User) : bool :=
  match u with None => true | Some _ => false end.

Section WithTokenRefresh.

(** The state the guarded operation works on. *)
Context {St : Type}.

(** [type ApiCall = (idToken: string) => void] *)
Definition ApiCall := string -> St -> Completion * St.

(** The variables of one call of [withTokenRefresh], with the promises of
    [getIdToken(true)] whose reaction is registered and has not run. *)
Record Frame := mkFrame {
  session : Session;
  inner : St;
  currentToken : string;
  retryAttempt : nat;
  refreshing : list (option string)
}.

(** One iteration of the body of the [while]; the boolean is [break]. *)
Definition iteration (u : User) (fn : ApiCall) (fr : Frame) : bool * Frame :=
  let attempt := (retryAttempt fr + 1)%nat in
  let called := emit (Invoked (currentToken fr)) (session fr) in
  match fn (currentToken fr) (inner fr) with
  | (Normal, st) =>
      (true, mkFrame called st (currentToken fr) attempt (refreshing fr))
  | (Throw _, st) =>
      if (attempt <? 2)%nat then
        (false, mkFrame (emit (GetIdToken true) called) st (currentToken fr)
                  attempt (refreshing fr ++ [getIdToken u true]))
      else
        (false, mkFrame (emit SignOut called) st (currentToken fr)
                  attempt (refreshing fr))
  end.

(** [while (retryAttempt < 2) { ... }]; [None] when the fuel runs out. *)
Fixpoint while (fuel : nat) (u : User) (fn : ApiCall) (fr : Frame)
  : option Frame :=
  if (retryAttempt fr <? 2)%nat then
    match fuel with
    | O => None
    | S fuel' =>
        let '(break, fr') := iteration u fn fr in
        if break then Some fr' else while fuel' u fn fr'
    end
  else Some fr.

(** The frame of a call that returned at the guard. *)
Definition skipped (s : Session) (st : St) : Frame :=
  mkFrame s st "" 0 [].

(** The synchronous part of [withTokenRefresh(fn)].  The loop needs two
    rounds at most ([while_enough_fuel]). *)
Definition withTokenRefresh (fn : ApiCall) (s : Session) (st : St) : Frame :=
  if no_user (user s) || no_token (token s) then skipped s st
  else
    match user s, token s with
    | Some u, Some t =>
        let start := mkFrame s st t 0 [] in
        default start (while 2 u fn start)
    | _, _ => skipped s st
    end.

(** The reaction [(idToken) => { setToken(idToken); currentToken = idToken }]
    of [getIdToken(true).then]; a rejected promise has no reaction. *)
Definition on_idToken (fr : Frame) (p : option string) : Frame :=
  match p with
  | Some idToken =>
      mkFrame (setToken idToken (session fr)) (inner fr) idToken
        (retryAttempt fr) (refreshing fr)
  | None => fr
  end.

(** The jobs that run after the synchronous part. *)
Definition settle_refreshes (fr : Frame) : Frame :=
  let fr' := foldl on_idToken fr (refreshing fr) in
  mkFrame (session fr') (inner fr') (currentToken fr') (retryAttempt fr') [].

End WithTokenRefresh.

Arguments ApiCall : clear implicits.
Arguments Frame : clear implicits.

(** ** The games provider *)

(** Modelled from the spec: [LOADING], [DONE] and [ERROR] of
    [utils/loadingStates], which is not among the sources
    ("[Loading | Ready | Error]"). *)
Inductive LoadingState := LOADING | DONE | ERROR.

Module Flash.

Inductive Kind := success | error.

(** The argument of [setFlashProps] of the page context, with the fields
    the games provider fills in. *)
Record Props := mk {
  hidden : bool;
  type : Kind;
  header : option string;
  message : Message
}.

End Flash.

(** A callback of the presentation layer, known by its name: the store
    only ever calls it. *)
Definition CallbackFunction := string.

Inductive Request :=
| PostGames (body : RequestGame) (idToken : string)
| GetGames (idToken : string)
| PatchGame (gameId : Z) (attributes : RequestGame) (idToken : string)
| DeleteGame (gameId : Z) (idToken : string).

(** What the games provider does to its collaborators, in order. *)
Inductive Notice :=
| Sent (r : Request)
| SetFlashProps (p : Flash.Props)
| SetModalProps (hidden : bool)
| Called (cb : CallbackFunction)
| UnhandledRejection (e : ApiError).

Record Store := mkStore {
  games : list Game;
  gamesLoadingState : LoadingState;
  notices : list Notice
}.

Definition setGames (l : list Game) (s : Store) : Store :=
  mkStore l (gamesLoadingState s) (notices s).

Definition setGamesLoadingState (ls : LoadingState) (s : Store) : Store :=
  mkStore (games s) ls (notices s).

Definition notify (n : Notice) (s : Store) : Store :=
  mkStore (games s) (gamesLoadingState s) (notices s ++ [n]).

Definition setFlashProps (p : Flash.Props) : Store -> Store :=
  notify (SetFlashProps p).

Definition setModalProps (hide : bool) : Store -> Store :=
  notify (SetModalProps hide).

(** [cb && cb()] *)
Definition call (cb : option CallbackFunction) (s : Store) : Store :=
  match cb with
  | Some f => notify (Called f) s
  | None => s
  end.

Definition NOT_FOUND_MESSAGE : string :=
  "Oops! We couldn't find the game you're looking for. Please refresh and try again.".

Definition UNEXPECTED_ERROR_MESSAGE : string :=
  "Oops! Something unexpected went wrong. We're sorry! Please try again later.".

(** The header of a validation flash, for [n] messages. *)
Definition errors_header (n : nat) : string :=
  pretty n +:+ " error(s) prevented your game from being saved:".

(** [handleApiError]; the console output of development builds is left
    out. *)
Definition handleApiError (e : ApiError) : Store -> Store :=
  match message e with
  | Lines l =>
      setFlashProps
        (Flash.mk false Flash.error (Some (errors_header (length l))) (Lines l))
  | Text _ =>
      let message :=
        if code e =? 404 then NOT_FOUND_MESSAGE else UNEXPECTED_ERROR_MESSAGE in
      setFlashProps (Flash.mk false Flash.error None (Text message))
  end.

Definition success_flash (text : string) : Flash.Props :=
  Flash.mk false Flash.success None (Text text).

(** [Array.prototype.findIndex]: the first position that satisfies [p],
    or -1. *)
Fixpoint findIndex {A : Type} (p : A -> bool) (l : list A) : Z :=
  match l with
  | [] => -1
  | x :: l' =>
      if p x then 0
      else let i := findIndex p l' in if i <? 0 then -1 else i + 1
  end.

(** [a[index] = v].  A negative index names a property that is not an
    element: the elements stay as they are.  An index from [length a] on
    would grow the array; [findIndex] never returns one
    ([findIndex_lt_length]), and the list update leaves the list as it is
    there. *)
Definition assign {A : Type} (index : Z) (v : A) (a : list A) : list A :=
  if index <? 0 then a else <[Z.to_nat index := v]> a.

(** The state of one guarded API call: the store, the results the API
    client is going to give to the calls still to come, and the promises
    it has returned, whose reactions have not run. *)
Record Pending (R : Type) := mkPending {
  store : Store;
  remote : list (ApiResult R);
  awaiting : list (Settlement R)
}.
Arguments mkPending {R} _ _ _.
Arguments store {R} _.
Arguments remote {R} _.
Arguments awaiting {R} _.

(** One call of the API client.  With no result left the promise it
    returns never settles. *)
Definition request {R : Type} (req : Request) (st : Pending R)
  : Completion * Pending R :=
  let sent := notify (Sent req) (store st) in
  match remote st with
  | [] => (Normal, mkPending sent [] (awaiting st ++ [Unsettled]))
  | Raises e :: rest => (Throw e, mkPending sent rest (awaiting st))
  | Returns p :: rest => (Normal, mkPending sent rest (awaiting st ++ [p]))
  end.

(** The reactions of [promise.then(onFulfilled).catch(onRejected)].  An
    error thrown by [onRejected] rejects the last promise of the chain,
    which nothing handles. *)
Definition then_catch {R : Type}
    (onFulfilled : R -> Store -> Store)
    (onRejected : ApiError -> Store -> Completion * Store)
    (s : Store) (p : Settlement R) : Store :=
  match p with
  | Fulfilled r => onFulfilled r s
  | Rejected e =>
      match onRejected e s with
      | (Normal, s') => s'
      | (Throw e', s') => notify (UnhandledRejection e') s'
      end
  | Unsettled => s
  end.

(** Both providers. *)
Record World := mkWorld { login : Session; data : Store }.

(** The shape the four operations share:
    [withTokenRefresh((idToken) => { before; api(idToken).then(onFulfilled).catch(onRejected) })].
    The synchronous part runs first, then the reactions of the promises the
    API client returned, then those of the identity provider. *)
Definition guarded {R : Type}
    (before : Store -> Store)
    (api : string -> Request)
    (onFulfilled : R -> Store -> Store)
    (onRejected : ApiError -> Store -> Completion * Store)
    (results : list (ApiResult R)) (w : World) : World :=
  let fn : ApiCall (Pending R) := fun idToken st =>
    request (api idToken)
      (mkPending (before (store st)) (remote st) (awaiting st)) in
  let fr := withTokenRefresh fn (login w) (mkPending (data w) results []) in
  let s := foldl (then_catch onFulfilled onRejected)
                 (store (inner fr)) (awaiting (inner fr)) in
  mkWorld (session (settle_refreshes fr)) s.

(** The [.catch] of [createGame], [updateGame] and [destroyGame]. *)
Definition mutation_failed (onError : option CallbackFunction)
    (e : ApiError) (s : Store) : Completion * Store :=
  if code e =? 401 then (Throw e, s)
  else (Normal, call onError (handleApiError e s)).

(** The [.then] of [createGame]; [games] is the array the callback closed
    over. *)
Definition created (games : list Game) (onSuccess : option CallbackFunction)
    (r : Response Object) (s : Store) : Store :=
  if has_key "name" (json r) then
    call onSuccess
      (setFlashProps (success_flash "Success! Your game has been created.")
         (setGames (json r :: games) s))
  else s.

(** [createGame(body, onSuccess, onError)].  The callback is rebuilt
    whenever [games] changes, so it closes over the collection as it is
    when it is called. *)
Definition createGame (body : RequestGame)
    (onSuccess onError : option CallbackFunction)
    (results : list (ApiResult (Response Object))) (w : World) : World :=
  guarded id (PostGames body)
    (created (games (data w)) onSuccess) (mutation_failed onError) results w.

(** The [.then] and the [.catch] of [fetchGames]. *)
Definition fetched (r : Response Body) (s : Store) : Store :=
  match json r with
  | Arr l => setGamesLoadingState DONE (setGames l s)
  | Obj _ => s
  end.

Definition fetch_failed (e : ApiError) (s : Store) : Completion * Store :=
  if code e =? 401 then (Throw e, s)
  else (Normal, setGamesLoadingState ERROR (setGames [] (handleApiError e s))).

(** [fetchGames()] *)
Definition fetchGames
    (results : list (ApiResult (Response Body))) (w : World) : World :=
  guarded (setGamesLoadingState LOADING) GetGames fetched fetch_failed
    results w.

(** The [.then] of [updateGame].  [newGames] is the array [games] itself,
    changed in place. *)
Definition updated (games : list Game) (gameId : Z)
    (onSuccess : option CallbackFunction)
    (r : Response Object) (s : Store) : Store :=
  if status r =? 200 then
    let index := findIndex (id_is gameId) games in
    let newGames := assign index (json r) games in
    call onSuccess
      (setFlashProps (success_flash "Success! Your game has been updated.")
         (setModalProps true (setGames newGames s)))
  else s.

(** [updateGame(gameId, attributes, onSuccess, onError)] *)
Definition updateGame (gameId : Z) (attributes : RequestGame)
    (onSuccess onError : option CallbackFunction)
    (results : list (ApiResult (Response Object))) (w : World) : World :=
  guarded id (PatchGame gameId attributes)
    (updated (games (data w)) gameId onSuccess) (mutation_failed onError)
    results w.

(** The [.then] of [destroyGame]. *)
Definition destroyed (games : list Game) (gameId : Z)
    (onSuccess : option CallbackFunction)
    (r : Response unit) (s : Store) : Store :=
  if status r =? 204 then
    let newGames := filter (fun el => id_is gameId el = false) games in
    call onSuccess
      (setFlashProps (success_flash "Success! Your game has been deleted.")
         (setGames newGames s))
  else s.

(** [destroyGame(gameId, onSuccess, onError)] *)
Definition destroyGame (gameId : Z)
    (onSuccess onError : option CallbackFunction)
    (results : list (ApiResult (Response unit))) (w : World) : World :=
  guarded id (DeleteGame gameId)
    (destroyed (games (data w)) gameId onSuccess) (mutation_failed onError)
    results w.

(** ** Runs of the store *)

(** One use of the store by the presentation layer, with the results the
    API client gives to its requests. *)
Inductive Call :=
| Load (results : list (ApiResult (Response Body)))
| Create (body : RequestGame) (onSuccess onError : option CallbackFunction)
    (results : list (ApiResult (Response Object)))
| Update (gameId : Z) (attributes : RequestGame)
    (onSuccess onError : option CallbackFunction)
    (results : list (ApiResult (Response Object)))
| Destroy (gameId : Z) (onSuccess onError : option CallbackFunction)
    (results : list (ApiResult (Response unit))).

Definition perform (c : Call) (w : World) : World :=
  match c with
  | Load results => fetchGames results w
  | Create body onSuccess onError results =>
      createGame body onSuccess onError results w
  | Update gameId attributes onSuccess onError results =>
      updateGame gameId attributes onSuccess onError results w
  | Destroy gameId onSuccess onError results =>
      destroyGame gameId onSuccess onError results w
  end.

(** The calls of a list, one after the other: each is issued once the one
    before it is over. *)
Definition run (calls : list Call) (w : World) : World :=
  foldl (fun w c => perform c w) w calls.

(** ** Vocabulary of the statements *)

(** A user and a usable token are held. *)
Definition signed_in (s : Session) (u : User) (t : string) : Prop :=
  user s = Some u /\ token s = Some t /\ t <> "".

(** The promise a guarded call ends up waiting for: the one of the first
    attempt, or the one of the second when the first call of the API
    client raised; none when both raised. *)
Definition returned {R : Type} (results : list (ApiResult R))
  : option (Settlement R) :=
  match results with
  | [] => Some Unsettled
  | Returns p :: _ => Some p
  | [Raises _] => Some Unsettled
  | Raises _ :: Returns p :: _ => Some p
  | Raises _ :: Raises _ :: _ => None
  end.

(** The ids of a collection, in order. *)
Definition ids (l : list Game) : list Z := omap game_id l.

(** At most one entry per id. *)
Definition unique_ids (l : list Game) : Prop := NoDup (ids l).

(** The flashes, the callbacks and the modal requests of a list of
    notices, in order. *)
Definition flashes (l : list Notice) : list Flash.Props :=
  omap (fun n => match n with SetFlashProps p => Some p | _ => None end) l.

Definition callbacks (l : list Notice) : list CallbackFunction :=
  omap (fun n => match n with Called f => Some f | _ => None end) l.

Definition modals (l : list Notice) : list bool :=
  omap (fun n => match n with SetModalProps h => Some h | _ => None end) l.

(** How often [signOutWithGoogle] was called. *)
Definition sign_outs (l : list Effect) : nat :=
  length (filter (fun ev => ev = SignOut) l).

(** How often [getIdToken(true)] was called. *)
Definition refreshes (l : list Effect) : nat :=
  length (filter (fun ev => ev = GetIdToken true) l).

(** The tokens [fn] was called with, in order. *)
Definition invocations (l : list Effect) : list string :=
  omap (fun ev => match ev with Invoked t => Some t | _ => None end) l.

(** How many times a guarded call asks the API client. *)
Definition attempts {R : Type} (results : list (ApiResult R)) : nat :=
  match results with
  | Raises _ :: _ => 2
  | _ => 1
  end.

(** The store once the API client has been asked [n] times with token
    [t]. *)
Definition asked (before : Store -> Store) (api : string -> Request)
    (t : string) (n : nat) (s : Store) : Store :=
  Nat.iter n (fun s => notify (Sent (api t)) (before s)) s.

(** Both calls of the API client raise an error of code 401 to
    [withTokenRefresh]. *)
Definition rejected_twice {R : Type} (results : list (ApiResult R)) : Prop :=
  match results with
  | Raises e1 :: Raises e2 :: _ => code e1 = 401 /\ code e2 = 401
  | _ => False
  end.

Definition both_attempts_rejected (c : Call) : Prop :=
  match c with
  | Load results => rejected_twice results
  | Create _ _ _ results => rejected_twice results
  | Update _ _ _ _ results => rejected_twice results
  | Destroy _ _ _ results => rejected_twice results
  end.

(** The first request of the call is answered with a promise that is
    rejected with [e]. *)
Definition first_result_rejected (c : Call) (e : ApiError) : Prop :=
  match c with
  | Load (Returns (Rejected e') :: _) => e' = e
  | Create _ _ _ (Returns (Rejected e') :: _) => e' = e
  | Update _ _ _ _ (Returns (Rejected e') :: _) => e' = e
  | Destroy _ _ _ (Returns (Rejected e') :: _) => e' = e
  | _ => False
  end.

(** The second store has the collection, the loading state, the flashes,
    the callbacks and the modal requests of the first. *)
Definition untouched (s s' : Store) : Prop :=
  games s' = games s /\
  gamesLoadingState s' = gamesLoadingState s /\
  flashes (notices s') = flashes (notices s) /\
  callbacks (notices s') = callbacks (notices s) /\
  modals (notices s') = modals (notices s).

(** The callbacks a call of [cb && cb()] runs. *)
Definition ran (cb : option CallbackFunction) : list CallbackFunction :=
  match cb with Some f => [f] | None => [] end.

(** The answers of the server to a call are as the spec has them, for a
    store that holds the collection [l] when the call is made: a list has
    no id twice, the id of a created game is not one of [l], an updated
    game comes back under the id that was asked for.  (A created game
    without a numeric id asks for nothing.) *)
Definition answers_as_specified (c : Call) (l : list Game) : Prop :=
  match c with
  | Load results =>
      forall r l', Returns (Fulfilled r) ∈ results -> json r = Arr l' ->
        unique_ids l'
  | Create _ _ _ results =>
      forall r n, Returns (Fulfilled r) ∈ results ->
        game_id (json r) = Some n -> n ∉ ids l
  | Update gameId _ _ _ results =>
      forall r, Returns (Fulfilled r) ∈ results ->
        game_id (json r) = Some gameId
  | Destroy _ _ _ _ => True
  end.

(** The same along a run. *)
Fixpoint served_as_specified (calls : list Call) (w : World) : Prop :=
  match calls with
  | [] => True
  | c :: calls' =>
      answers_as_specified c (games (data w)) /\
      served_as_specified calls' (perform c w)
  end.

(** ** The effects of the providers *)

(** The reaction [(idToken) => setToken(idToken)] of the login provider. *)
Definition on_refreshed (s : Session) (p : option string) : Session :=
  match p with
  | Some idToken => setToken idToken s
  | None => s
  end.

(** The synchronous part of the effect of the login provider on
    [[user, authError]]:
    [if (authError) signOutWithGoogle(); if (user) user.getIdToken(true).then(...)],
    with the promises whose reaction it registers. *)
Definition identity_effect (authError : bool) (s : Session)
  : Session * list (option string) :=
  let s1 := if authError then emit SignOut s else s in
  match user s1 with
  | Some u => (emit (GetIdToken true) s1, [getIdToken u true])
  | None => (s1, [])
  end.

(** The effect and its reactions. *)
Definition identity_changed (authError : bool) (s : Session) : Session :=
  let '(s1, ps) := identity_effect authError s in
  foldl on_refreshed s1 ps.

(** [requireLogin()]: whether [navigate(paths.home)] is called. *)
Definition requireLogin (authLoading : bool) (s : Session) : bool :=
  no_user (user s) && negb authLoading.

(** The effect of the games provider on [[authLoading, token]]:
    [if (authLoading || !token) return; fetchGames()]. *)
Definition load_effect (authLoading : bool)
    (results : list (ApiResult (Response Body))) (w : World) : World :=
  if authLoading || no_token (token (login w)) then w
  else fetchGames results w.

(** ** Calls that overlap *)

(** The function the four operations hand to [withTokenRefresh]. *)
Definition api_call {R : Type} (before : Store -> Store)
    (api : string -> Request) : ApiCall (Pending R) :=
  fun idToken st =>
    request (api idToken)
      (mkPending (before (store st)) (remote st) (awaiting st)).

(** A call that has returned to its caller: both providers as it left
    them, the promises of the API client it waits for and the promises of
    the identity provider whose reaction it registered. *)
Record Issued (R : Type) := mkIssued {
  after : World;
  promises : list (Settlement R);
  answers : list (option string)
}.
Arguments mkIssued {R} _ _ _.
Arguments after {R} _.
Arguments promises {R} _.
Arguments answers {R} _.

(** The synchronous part of a guarded call, on its own. *)
Definition issue {R : Type} (before : Store -> Store)
    (api : string -> Request) (results : list (ApiResult R)) (w : World)
  : Issued R :=
  let fr :=
    withTokenRefresh (api_call before api) (login w)
      (mkPending (data w) results []) in
  mkIssued (mkWorld (session fr) (store (inner fr)))
    (awaiting (inner fr)) (refreshing fr).

(** The reactions to the promises of the API client, when they settle. *)
Definition respond {R : Type}
    (onFulfilled : R -> Store -> Store)
    (onRejected : ApiError -> Store -> Completion * Store)
    (ps : list (Settlement R)) (w : World) : World :=
  mkWorld (login w) (foldl (then_catch onFulfilled onRejected) (data w) ps).

(** The reactions to the promises of the identity provider. *)
Definition refresh_answered (ps : list (option string)) (w : World) : World :=
  mkWorld (foldl on_refreshed (login w) ps) (data w).

(** Two calls of [createGame] made one after the other before either is
    answered; the answers come in the order of the calls.  Both callbacks
    close over the [games] of the render they were called in: no state of
    the games provider changes between the two calls. *)
Definition two_creates
    (body1 : RequestGame) (onSuccess1 onError1 : option CallbackFunction)
    (results1 : list (ApiResult (Response Object)))
    (body2 : RequestGame) (onSuccess2 onError2 : option CallbackFunction)
    (results2 : list (ApiResult (Response Object)))
    (w : World) : World :=
  let i1 := issue id (PostGames body1) results1 w in
  let i2 := issue id (PostGames body2) results2 (after i1) in
  let w1 :=
    respond (created (games (data w)) onSuccess1) (mutation_failed onError1)
      (promises i1) (after i2) in
  let w2 :=
    respond (created (games (data (after i1))) onSuccess2)
      (mutation_failed onError2) (promises i2) w1 in
  refresh_answered (answers i1 ++ answers i2) w2.

(** A call of [destroyGame] and a call of [createGame] made before either
    is answered; the delete is answered first. *)
Definition destroy_then_create
    (gameId : Z) (onSuccess1 onError1 : option CallbackFunction)
    (results1 : list (ApiResult (Response unit)))
    (body2 : RequestGame) (onSuccess2 onError2 : option CallbackFunction)
    (results2 : list (ApiResult (Response Object)))
    (w : World) : World :=
  let i1 := issue id (DeleteGame gameId) results1 w in
  let i2 := issue id (PostGames body2) results2 (after i1) in
  let w1 :=
    respond (destroyed (games (data w)) gameId onSuccess1)
      (mutation_failed onError1) (promises i1) (after i2) in
  let w2 :=
    respond (created (games (data (after i1))) onSuccess2)
      (mutation_failed onError2) (promises i2) w1 in
  refresh_answered (answers i1 ++ answers i2) w2.

(** ** More vocabulary *)

(** The requests and the unhandled rejections of a list of notices. *)
Definition sent (l : list Notice) : list Request :=
  omap (fun n => match n with Sent r => Some r | _ => None end) l.

Definition unhandled (l : list Notice) : list ApiError :=
  omap (fun n => match n with UnhandledRejection e => Some e | _ => None end)
    l.

(** The request a call sends with token [t], and how often it sends it. *)
Definition request_of (c : Call) (t : string) : Request :=
  match c with
  | Load _ => GetGames t
  | Create body _ _ _ => PostGames body t
  | Update gameId attributes _ _ _ => PatchGame gameId attributes t
  | Destroy gameId _ _ _ => DeleteGame gameId t
  end.

Definition requests_of (c : Call) : nat :=
  match c with
  | Load results => attempts results
  | Create _ _ _ results => attempts results
  | Update _ _ _ _ results => attempts results
  | Destroy _ _ _ results => attempts results
  end.

(** The call is a mutation. *)
Definition is_mutation (c : Call) : Prop :=
  match c with Load _ => False | _ => True end.

(** The promise the call waits for is rejected with [e]. *)
Definition call_rejected (c : Call) (e : ApiError) : Prop :=
  match c with
  | Load results => returned results = Some (Rejected e)
  | Create _ _ _ results => returned results = Some (Rejected e)
  | Update _ _ _ _ results => returned results = Some (Rejected e)
  | Destroy _ _ _ results => returned results = Some (Rejected e)
  end.

(** The callbacks a call was given. *)
Definition onError_of (c : Call) : option CallbackFunction :=
  match c with
  | Load _ => None
  | Create _ _ onError _ => onError
  | Update _ _ _ onError _ => onError
  | Destroy _ _ onError _ => onError
  end.

(** A load gets no list and no failure to report: both calls of the API
    client raise, or the promise never settles, or it is rejected with code
    401, or it is fulfilled with a body that is not an array. *)
Definition load_unanswered (results : list (ApiResult (Response Body)))
  : Prop :=
  match returned results with
  | None => True
  | Some Unsettled => True
  | Some (Rejected e) => code e = 401
  | Some (Fulfilled r) => exists o, json r = Obj o
  end.

(** The entries of a collection with the id. *)
Definition with_id (gameId : Z) (l : list Game) : list Game :=
  filter (fun el => id_is gameId el = true) l.

(** The first call of the API client raises [e1] to [withTokenRefresh];
    the retry returns a promise, which is rejected with [e2]. *)
Definition retry_rejected {R : Type} (results : list (ApiResult R))
    (e1 e2 : ApiError) : Prop :=
  match results with
  | Raises e1' :: Returns (Rejected e2') :: _ => e1' = e1 /\ e2' = e2
  | _ => False
  end.

Definition retry_of_call_rejected (c : Call) (e1 e2 : ApiError) : Prop :=
  match c with
  | Load results => retry_rejected results e1 e2
  | Create _ _ _ results => retry_rejected results e1 e2
  | Update _ _ _ _ results => retry_rejected results e1 e2
  | Destroy _ _ _ results => retry_rejected results e1 e2
  end.

(** ** Sample values *)

(** A guarded operation over a counter, which raises an error of code 401
    on the calls whose number is below [failures]. *)
Definition flaky (failures : nat) : ApiCall nat :=
  fun _ n =>
    (if (n <? failures)%nat then Throw (mkApiError 401 (Text "Unauthorized"))
     else Normal, S n).

(** A user whose forced refresh is answered with ["fresh"], holding the
    token ["stale"]. *)
Definition alice : User := mkUser "alice" (fun _ => Some "fresh").

Definition alice_session : Session := mkSession (Some alice) (Some "stale") [].

(** Entries that carry an id and nothing else, and the collection of the
    scenarios. *)
Definition entry (n : Z) : Game := {[ "id" := Num n ]}.

Definition three_games : list Game := [entry 5; entry 7; entry 9].

Definition named (n : Z) (name : string) : Game :=
  <[ "name" := Str name ]> (entry n).

Definition alice_world : World :=
  mkWorld alice_session (mkStore three_games DONE []).

Definition unauthorized : ApiError := mkApiError 401 (Text "Unauthorized").

(** A guarded operation over a counter whose call number [n] raises an
    error of the [n]-th code of the list, and returns once the list is
    used up. *)
Definition failing (codes : list Z) : ApiCall nat :=
  fun _ n =>
    (match codes !! n with
     | Some c => Throw (mkApiError c (Text "Failed"))
     | None => Normal
     end, S n).

(** A user whose forced refresh is rejected, holding the token ["stale"]. *)
Definition bob : User := mkUser "bob" (fun _ => None).

Definition bob_session : Session := mkSession (Some bob) (Some "stale") [].

(** Closes a decidable goal about sample values by evaluation. *)
Ltac by_evaluation :=
  unfold unique_ids;
  match goal with
  | |- ?P =>
      let H := fresh in
      assert (H : bool_decide P = true) by (vm_compute; reflexivity);
      exact (proj1 (bool_decide_eq_true P) H)
  end.

(** * Properties *)

(** ** The retry loop *)

Section RetryLoop.

Context {St : Type}.
Implicit Types (fn : ApiCall St) (s : Session) (st : St) (fr : Frame St).

Lemma iteration_counts u fn fr :
  retryAttempt (iteration u fn fr).2 = S (retryAttempt fr).
Proof.
  unfold iteration.
  destruct (fn _ _) as [[|e] st']; simpl; [lia|].
  destruct (_ <? _)%nat; simpl; lia.
Qed.

Lemma while_done fuel u fn fr :
  (2 <= retryAttempt fr)%nat -> while fuel u fn fr = Some fr.
Proof.
  intros Hge. destruct fuel; simpl;
    (destruct (Nat.ltb_spec (retryAttempt fr) 2) as [Hlt|_]; [lia|done]).
Qed.

(** The loop ends: fuel for the rounds that are left is enough, and more
    fuel does not change the frame it ends in. *)
Lemma while_enough_fuel fuel u fn fr :
  (2 - retryAttempt fr <= fuel)%nat ->
  exists fr', while fuel u fn fr = Some fr' /\
    forall fuel', (fuel <= fuel')%nat -> while fuel' u fn fr = Some fr'.
Proof.
  revert fr. induction fuel as [|fuel IH]; intros fr Hfuel.
  - exists fr. split; [apply while_done; lia|].
    intros fuel' _. apply while_done. lia.
  - destruct (Nat.ltb_spec (retryAttempt fr) 2) as [Hlt|Hge].
    + pose proof (iteration_counts u fn fr) as Hcount.
      destruct (iteration u fn fr) as [brk fr1] eqn:Hit. simpl in Hcount.
      destruct brk.
      * exists fr1. split.
        -- simpl. apply Nat.ltb_lt in Hlt. by rewrite Hlt, Hit.
        -- intros [|fuel'] Hle; [lia|]. simpl.
           apply Nat.ltb_lt in Hlt. by rewrite Hlt, Hit.
      * destruct (IH fr1) as (fr' & Hrun & Hmore); [lia|].
        exists fr'. split.
        -- simpl. apply Nat.ltb_lt in Hlt. by rewrite Hlt, Hit.
        -- intros [|fuel'] Hle; [lia|]. simpl.
           apply Nat.ltb_lt in Hlt. rewrite Hlt, Hit. apply Hmore. lia.
    + exists fr. split; [by apply while_done|].
      intros fuel' _. by apply while_done.
Qed.

Lemma signed_in_guard s u t :
  signed_in s u t -> no_user (user s) || no_token (token s) = false.
Proof.
  intros (Hu & Ht & Hne). rewrite Hu, Ht. simpl.
  by apply bool_decide_eq_false.
Qed.

(** The loop of a call that passes the guard returns, and the frame it
    returns is the one [withTokenRefresh] gives, whatever fuel from two up
    it is run with. *)
Lemma withTokenRefresh_total fn s st u t :
  signed_in s u t ->
  forall fuel, (2 <= fuel)%nat ->
    while fuel u fn (mkFrame s st t 0 []) = Some (withTokenRefresh fn s st).
Proof.
  intros Hin fuel Hfuel.
  destruct (while_enough_fuel 2 u fn (mkFrame s st t 0 []))
    as (fr' & Htwo & Hmore); [simpl; lia|].
  unfold withTokenRefresh. rewrite (signed_in_guard _ _ _ Hin).
  destruct Hin as (-> & -> & _). rewrite Htwo. simpl. by apply Hmore.
Qed.

(** The frame the synchronous part ends in, in its three cases. *)
Lemma withTokenRefresh_returns fn s st u t st1 :
  signed_in s u t -> fn t st = (Normal, st1) ->
  withTokenRefresh fn s st = mkFrame (emit (Invoked t) s) st1 t 1 [].
Proof.
  intros Hin Hfn. unfold withTokenRefresh.
  rewrite (signed_in_guard _ _ _ Hin).
  destruct Hin as (-> & -> & _). simpl. unfold iteration. simpl.
  by rewrite Hfn.
Qed.

Lemma withTokenRefresh_retry_returns fn s st u t e st1 st2 :
  signed_in s u t -> fn t st = (Throw e, st1) -> fn t st1 = (Normal, st2) ->
  withTokenRefresh fn s st =
    mkFrame (emit (Invoked t) (emit (GetIdToken true) (emit (Invoked t) s)))
      st2 t 2 [getIdToken u true].
Proof.
  intros Hin Hfn1 Hfn2. unfold withTokenRefresh.
  rewrite (signed_in_guard _ _ _ Hin).
  destruct Hin as (-> & -> & _). simpl. unfold iteration. simpl.
  rewrite Hfn1. simpl. by rewrite Hfn2.
Qed.

Lemma withTokenRefresh_retry_raises fn s st u t e st1 e' st2 :
  signed_in s u t -> fn t st = (Throw e, st1) -> fn t st1 = (Throw e', st2) ->
  withTokenRefresh fn s st =
    mkFrame
      (emit SignOut
         (emit (Invoked t) (emit (GetIdToken true) (emit (Invoked t) s))))
      st2 t 2 [getIdToken u true].
Proof.
  intros Hin Hfn1 Hfn2. unfold withTokenRefresh.
  rewrite (signed_in_guard _ _ _ Hin).
  destruct Hin as (-> & -> & _). simpl. unfold iteration. simpl.
  rewrite Hfn1. simpl. by rewrite Hfn2.
Qed.

Lemma withTokenRefresh_skips fn s st :
  no_user (user s) || no_token (token s) = true ->
  withTokenRefresh fn s st = skipped s st.
Proof. intros Hguard. unfold withTokenRefresh. by rewrite Hguard. Qed.

End RetryLoop.

Lemma sign_outs_app l1 l2 :
  sign_outs (l1 ++ l2) = (sign_outs l1 + sign_outs l2)%nat.
Proof. unfold sign_outs. by rewrite filter_app, length_app. Qed.

Lemma refreshes_app l1 l2 :
  refreshes (l1 ++ l2) = (refreshes l1 + refreshes l2)%nat.
Proof. unfold refreshes. by rewrite filter_app, length_app. Qed.

Lemma invocations_app l1 l2 :
  invocations (l1 ++ l2) = (invocations l1 ++ invocations l2)%list.
Proof. unfold invocations. apply omap_app. Qed.

Lemma flashes_app l1 l2 : flashes (l1 ++ l2) = (flashes l1 ++ flashes l2)%list.
Proof. unfold flashes. apply omap_app. Qed.

Lemma callbacks_app l1 l2 :
  callbacks (l1 ++ l2) = (callbacks l1 ++ callbacks l2)%list.
Proof. unfold callbacks. apply omap_app. Qed.

Lemma modals_app l1 l2 : modals (l1 ++ l2) = (modals l1 ++ modals l2)%list.
Proof. unfold modals. apply omap_app. Qed.

(** ** The shape shared by the four operations *)

Section Guarded.

Context {R : Type}.
Variables (before : Store -> Store) (api : string -> Request).
Variables (onFulfilled : R -> Store -> Store).
Variables (onRejected : ApiError -> Store -> Completion * Store).

Lemma then_catch_unsettled (s : Store) :
  then_catch onFulfilled onRejected s Unsettled = s.
Proof. done. Qed.

(** The store after a guarded call: the reaction of the promise the call
    waits for, run on the store as the requests left it. *)
Lemma guarded_data results w u t :
  signed_in (login w) u t ->
  data (guarded before api onFulfilled onRejected results w) =
    let s := asked before api t (attempts results) (data w) in
    match returned results with
    | Some p => then_catch onFulfilled onRejected s p
    | None => s
    end.
Proof.
  intros Hin. unfold guarded.
  destruct results as [|[e1|p1] [|[e2|p2] rest]].
  - by erewrite withTokenRefresh_returns by (done || reflexivity).
  - by erewrite withTokenRefresh_retry_returns by (done || reflexivity).
  - by erewrite withTokenRefresh_retry_raises by (done || reflexivity).
  - by erewrite withTokenRefresh_retry_returns by (done || reflexivity).
  - by erewrite withTokenRefresh_returns by (done || reflexivity).
  - by erewrite withTokenRefresh_returns by (done || reflexivity).
  - by erewrite withTokenRefresh_returns by (done || reflexivity).
Qed.

(** The login provider after a guarded call. *)
Lemma guarded_login results w u t :
  signed_in (login w) u t ->
  login (guarded before api onFulfilled onRejected results w) =
    match results with
    | Raises _ :: rest =>
        let retried :=
          emit (Invoked t)
            (emit (GetIdToken true) (emit (Invoked t) (login w))) in
        let ended :=
          match rest with
          | Raises _ :: _ => emit SignOut retried
          | _ => retried
          end in
        match getIdToken u true with
        | Some t' => setToken t' ended
        | None => ended
        end
    | _ => emit (Invoked t) (login w)
    end.
Proof.
  intros Hin. unfold guarded.
  destruct results as [|[e1|p1] [|[e2|p2] rest]].
  - by erewrite withTokenRefresh_returns by (done || reflexivity).
  - erewrite withTokenRefresh_retry_returns by (done || reflexivity).
    unfold settle_refreshes. simpl. by destruct (getIdToken u true).
  - erewrite withTokenRefresh_retry_raises by (done || reflexivity).
    unfold settle_refreshes. simpl. by destruct (getIdToken u true).
  - erewrite withTokenRefresh_retry_returns by (done || reflexivity).
    unfold settle_refreshes. simpl. by destruct (getIdToken u true).
  - by erewrite withTokenRefresh_returns by (done || reflexivity).
  - by erewrite withTokenRefresh_returns by (done || reflexivity).
  - by erewrite withTokenRefresh_returns by (done || reflexivity).
Qed.

(** Without a user or without a token the call changes nothing. *)
Lemma guarded_skipped results w :
  no_user (user (login w)) || no_token (token (login w)) = true ->
  guarded before api onFulfilled onRejected results w = w.
Proof.
  intros Hguard. unfold guarded. rewrite withTokenRefresh_skips by done.
  by destruct w.
Qed.

(** The requests change neither the collection nor, when [before] leaves
    it alone, anything else but the list of requests sent. *)
Lemma asked_games t n s :
  (forall s', games (before s') = games s') ->
  games (asked before api t n s) = games s.
Proof.
  intros Hbefore. induction n as [|n IH]; [done|].
  simpl. by rewrite Hbefore.
Qed.

Lemma asked_quiet t n s :
  (forall s', notices (before s') = notices s') ->
  flashes (notices (asked before api t n s)) = flashes (notices s) /\
  callbacks (notices (asked before api t n s)) = callbacks (notices s) /\
  modals (notices (asked before api t n s)) = modals (notices s).
Proof.
  intros Hbefore. induction n as [|n (IHf & IHc & IHm)]; [done|].
  simpl. rewrite flashes_app, callbacks_app, modals_app, Hbefore.
  simpl. rewrite !app_nil_r. done.
Qed.

End Guarded.

(** ** The retry protocol *)

(** C1, as the code has it: when the first call of the operation raises
    the error of code 401, the identity provider is asked for a token once
    and the operation is called once more — with the token the first call
    was made with, not with the one the provider answers with.  The stored
    token is the old one for as long as the loop runs; the answer of the
    provider replaces it afterwards. *)
Theorem retry_reuses_the_rejected_token
    {St : Type} (fn : ApiCall St) s st u t e st1 :
  signed_in s u t ->
  fn t st = (Throw e, st1) ->
  code e = 401 ->
  let fr := withTokenRefresh fn s st in
  refreshes (effects (session fr)) = S (refreshes (effects s)) /\
  invocations (effects (session fr)) = (invocations (effects s) ++ [t; t])%list /\
  token (session fr) = Some t /\
  forall t', getIdToken u true = Some t' ->
    token (session (settle_refreshes fr)) = Some t' /\
    invocations (effects (session (settle_refreshes fr))) =
      (invocations (effects s) ++ [t; t])%list.
Proof.
  intros Hin Hfn1 _ fr. subst fr.
  destruct (fn t st1) as [[|e'] st2] eqn:Hfn2;
    [erewrite withTokenRefresh_retry_returns by done
    |erewrite withTokenRefresh_retry_raises by done];
    destruct Hin as (_ & Ht & _); unfold settle_refreshes; simpl;
    (split; [|split; [|split; [done|intros t' ->; simpl; split; [done|]]]]);
    rewrite ?refreshes_app, ?invocations_app; simpl;
    rewrite ?app_nil_r, <- ?app_assoc; try done;
    unfold refreshes; simpl; lia.
Qed.

(** The protocol at a first call that raises 401: both calls are made with
    ["stale"], although the provider answers ["fresh"]. *)
Lemma retry_reuses_the_rejected_token_witness :
  let fr := withTokenRefresh (flaky 1) alice_session 0%nat in
  invocations (effects (session fr)) = ["stale"; "stale"] /\
  token (session (settle_refreshes fr)) = Some "fresh".
Proof.
  pose proof (retry_reuses_the_rejected_token (flaky 1) alice_session 0%nat
                alice "stale" (mkApiError 401 (Text "Unauthorized")) 1%nat)
    as Hretry.
  destruct Hretry as (_ & Hcalls & _ & Hlater).
  - repeat split. intros Heq. discriminate Heq.
  - reflexivity.
  - reflexivity.
  - split; [exact Hcalls|]. exact (proj1 (Hlater "fresh" eq_refl)).
Defined.

Lemma emit_effects ev s : effects (emit ev s) = (effects s ++ [ev])%list.
Proof. done. Qed.

Lemma setToken_effects t s :
  effects (setToken t s) = (effects s ++ [SetToken t])%list.
Proof. done. Qed.

Lemma mutation_failed_401 onError e s :
  code e = 401 -> mutation_failed onError e s = (Throw e, s).
Proof. intros Hcode. unfold mutation_failed. by rewrite Hcode. Qed.

Lemma fetch_failed_401 e s :
  code e = 401 -> fetch_failed e s = (Throw e, s).
Proof. intros Hcode. unfold fetch_failed. by rewrite Hcode. Qed.

(** A [.catch] that throws its error again leaves it unhandled: the
    [try] of [withTokenRefresh] is over when the reaction runs.  The
    operation is called once, no token is asked for, nobody is signed
    out. *)
Lemma rejected_promise_is_not_retried
    {R : Type} before api (onFulfilled : R -> Store -> Store)
    onRejected e rest w u t :
  signed_in (login w) u t ->
  (forall s, onRejected e s = (Throw e, s)) ->
  let w' := guarded before api onFulfilled onRejected
              (Returns (Rejected e) :: rest) w in
  login w' = emit (Invoked t) (login w) /\
  data w' =
    notify (UnhandledRejection e) (notify (Sent (api t)) (before (data w))).
Proof.
  intros Hin Hthrows w'. subst w'. split.
  - by rewrite (guarded_login _ _ _ _ _ w u t).
  - rewrite (guarded_data _ _ _ _ _ w u t) by done. simpl.
    by rewrite Hthrows.
Qed.

(** So a store operation whose request is answered with a rejection of
    code 401 ends there: one call, no refresh, no sign-out, no flash. *)
Lemma unauthorized_response_ends_the_call c e w u t :
  signed_in (login w) u t ->
  code e = 401 ->
  first_result_rejected c e ->
  effects (login (perform c w)) = (effects (login w) ++ [Invoked t])%list /\
  token (login (perform c w)) = Some t /\
  flashes (notices (data (perform c w))) = flashes (notices (data w)) /\
  games (data (perform c w)) = games (data w).
Proof.
  intros Hin Hcode Hfirst.
  destruct c as [results|body onS onE results|gameId attrs onS onE results
                |gameId onS onE results];
    destruct results as [|[e1|[r|e'|]] rest]; try done;
    simpl in Hfirst; subst e';
    unfold perform, fetchGames, createGame, updateGame, destroyGame;
    rewrite (guarded_login _ _ _ _ _ w u t) by done;
    rewrite (guarded_data _ _ _ _ _ w u t) by done;
    destruct Hin as (_ & Ht & _); simpl;
    unfold mutation_failed, fetch_failed; rewrite Hcode; simpl;
    rewrite !flashes_app; simpl; by rewrite !app_nil_r.
Qed.

(** C2: without a user or without a token, [withTokenRefresh] returns at
    its guard: the operation is not called (its state is as it was), the
    identity provider is not asked for a token, nobody is signed out, no
    reaction is left to run, and a store operation leaves both providers
    as they were — no flash, no callback. *)
Theorem guarded_call_without_session_does_nothing
    {St : Type} (fn : ApiCall St) s st :
  user s = None \/ token s = None ->
  let fr := withTokenRefresh fn s st in
  session fr = s /\ inner fr = st /\ refreshing fr = [] /\
  session (settle_refreshes fr) = s /\
  forall (c : Call) (d : Store), perform c (mkWorld s d) = mkWorld s d.
Proof.
  intros Habsent fr.
  assert (Hguard : no_user (user s) || no_token (token s) = true).
  { destruct Habsent as [-> | ->]; [done|]. apply orb_true_r. }
  subst fr. rewrite withTokenRefresh_skips by done.
  repeat split.
  intros c d. destruct c; simpl; by apply guarded_skipped.
Qed.

Lemma guarded_call_without_session_does_nothing_witness :
  let s := mkSession (Some alice) None [] in
  session (withTokenRefresh (flaky 1) s 0%nat) = s /\
  inner (withTokenRefresh (flaky 1) s 0%nat) = 0%nat /\
  perform (Create (entry 1) (Some "done") (Some "failed")
             [Returns (Rejected unauthorized)])
          (mkWorld s (mkStore three_games DONE []))
    = mkWorld s (mkStore three_games DONE []).
Proof.
  destruct (guarded_call_without_session_does_nothing (flaky 1)
              (mkSession (Some alice) None []) 0%nat)
    as (Hsession & Hinner & _ & _ & Hstore).
  - right. reflexivity.
  - split; [exact Hsession|]. split; [exact Hinner|]. apply Hstore.
Defined.

Section GuardedRejections.

Context {R : Type}.
Variables (before : Store -> Store) (api : string -> Request).
Variables (onFulfilled : R -> Store -> Store).
Variables (onRejected : ApiError -> Store -> Completion * Store).
Hypothesis before_quiet : forall s, notices (before s) = notices s.

Lemma guarded_rejected_twice results w u t :
  signed_in (login w) u t ->
  rejected_twice results ->
  let w' := guarded before api onFulfilled onRejected results w in
  sign_outs (effects (login w')) = S (sign_outs (effects (login w))) /\
  flashes (notices (data w')) = flashes (notices (data w)).
Proof.
  intros Hin Htwice w'. subst w'.
  destruct results as [|[e1|p1] [|[e2|p2] rest]]; try done.
  split.
  - rewrite (guarded_login _ _ _ _ _ w u t) by done.
    destruct (getIdToken u true); simpl;
      rewrite !sign_outs_app; unfold sign_outs; simpl; lia.
  - rewrite (guarded_data _ _ _ _ _ w u t) by done.
    simpl returned. cbv zeta.
    by apply asked_quiet.
Qed.

End GuardedRejections.

(** The sign-out of the loop, seen from the store: it takes two calls of
    the API client that raise to [withTokenRefresh].  A promise that is
    rejected does not raise. *)
Theorem second_rejection_signs_out_once c w u t :
  signed_in (login w) u t ->
  both_attempts_rejected c ->
  sign_outs (effects (login (perform c w))) =
    S (sign_outs (effects (login w))) /\
  flashes (notices (data (perform c w))) = flashes (notices (data w)).
Proof.
  intros Hin Htwice.
  destruct c; unfold both_attempts_rejected in Htwice;
    unfold perform, fetchGames, createGame, updateGame, destroyGame;
    by eapply guarded_rejected_twice.
Qed.

Lemma second_rejection_signs_out_once_witness :
  let c := Create (entry 1) (Some "done") (Some "failed")
             [Raises unauthorized; Raises unauthorized] in
  sign_outs (effects (login (perform c alice_world))) = 1%nat /\
  flashes (notices (data (perform c alice_world))) = [].
Proof.
  apply (second_rejection_signs_out_once
           (Create (entry 1) (Some "done") (Some "failed")
              [Raises unauthorized; Raises unauthorized])
           alice_world alice "stale").
  - repeat split. intros Heq. discriminate Heq.
  - simpl. split; reflexivity.
Defined.

(** ** Arrays *)

Section Arrays.

Context {A : Type}.
Implicit Types (p : A -> bool) (l : list A).

Lemma findIndex_lt_length p l : -1 <= findIndex p l < Z.of_nat (length l).
Proof.
  induction l as [|x l IH]; simpl; [lia|].
  destruct (p x); [lia|].
  destruct (Z.ltb_spec (findIndex p l) 0); lia.
Qed.

(** No entry satisfies the test exactly when the answer is -1. *)
Lemma findIndex_none p l :
  findIndex p l = -1 <-> Forall (fun x => p x = false) l.
Proof.
  induction l as [|x l IH]; simpl; [by split; [constructor|]|].
  pose proof (findIndex_lt_length p l) as Hrange.
  destruct (p x) eqn:Hpx.
  - split; [lia|]. intros Hall. apply Forall_cons in Hall as [Hx _]. congruence.
  - destruct (Z.ltb_spec (findIndex p l) 0) as [Hneg|Hpos].
    + split; [|done]. intros _. constructor; [done|]. apply IH. lia.
    + split; [lia|]. intros Hall. apply Forall_cons in Hall as [_ Hl].
      apply IH in Hl. lia.
Qed.

(** Otherwise the answer is the first position that satisfies it. *)
Lemma findIndex_first p l (i : nat) :
  findIndex p l = Z.of_nat i <->
  exists x, l !! i = Some x /\ p x = true /\
    forall j y, (j < i)%nat -> l !! j = Some y -> p y = false.
Proof.
  revert i. induction l as [|x l IH]; intros i; simpl.
  - split; [lia|]. by intros (x & Hx & _).
  - pose proof (findIndex_lt_length p l) as Hrange.
    destruct (p x) eqn:Hpx.
    + split.
      * intros Hi. assert (i = 0%nat) as -> by lia.
        exists x. repeat split; [done|]. intros j y Hj. lia.
      * intros (y & Hy & Hpy & Hfirst). destruct i as [|i]; [done|].
        specialize (Hfirst 0%nat x). rewrite Hfirst in Hpx; [done|lia|done].
    + destruct (Z.ltb_spec (findIndex p l) 0) as [Hneg|Hpos].
      * split; [lia|]. intros (y & Hy & Hpy & Hfirst).
        destruct i as [|i]; simpl in Hy; [congruence|].
        assert (findIndex p l = Z.of_nat i) as Hfound; [|lia].
        apply IH. exists y. repeat split; [done..|].
        intros j z Hj Hz. apply (Hfirst (S j) z); [lia|done].
      * split.
        -- intros Hi. destruct i as [|i]; [lia|].
           assert (findIndex p l = Z.of_nat i) as Hfound by lia.
           apply IH in Hfound as (y & Hy & Hpy & Hfirst).
           exists y. repeat split; [done..|].
           intros [|j] z Hj Hz; simpl in Hz; [congruence|].
           apply (Hfirst j z); [lia|done].
        -- intros (y & Hy & Hpy & Hfirst).
           destruct i as [|i]; simpl in Hy; [congruence|].
           assert (findIndex p l = Z.of_nat i) as Hfound; [|lia].
           apply IH. exists y. repeat split; [done..|].
           intros j z Hj Hz. apply (Hfirst (S j) z); [lia|done].
Qed.

(** An entry that satisfies the test makes the answer a position. *)
Lemma findIndex_found p l x :
  x ∈ l -> p x = true -> exists i : nat, findIndex p l = Z.of_nat i.
Proof.
  intros Hx Hpx. pose proof (findIndex_lt_length p l) as Hrange.
  destruct (decide (findIndex p l = -1)) as [Hnone|Hsome].
  - apply findIndex_none in Hnone. rewrite Forall_forall in Hnone.
    apply Hnone in Hx. congruence.
  - exists (Z.to_nat (findIndex p l)). lia.
Qed.

Lemma assign_at (i : nat) (v : A) l : assign (Z.of_nat i) v l = <[i := v]> l.
Proof.
  unfold assign. destruct (Z.ltb_spec (Z.of_nat i) 0); [lia|].
  by rewrite Nat2Z.id.
Qed.

Lemma assign_negative (v : A) l : assign (-1) v l = l.
Proof. done. Qed.

Lemma length_assign index (v : A) l : length (assign index v l) = length l.
Proof. unfold assign. destruct (_ <? _); [done|apply length_insert]. Qed.

(** A list with exactly one entry that satisfies [P] splits around it, and
    filtering that entry out leaves the two sides. *)
Lemma filter_out_the_one (P : A -> Prop) `{!forall x, Decision (P x)} l :
  length (filter P l) = 1%nat ->
  exists l1 x l2, l = (l1 ++ x :: l2)%list /\ P x /\
    Forall (fun y => ~ P y) l1 /\ Forall (fun y => ~ P y) l2 /\
    filter (fun y => ~ P y) l = (l1 ++ l2)%list.
Proof.
  induction l as [|x l IH]; [done|].
  rewrite filter_cons. destruct (decide (P x)) as [HP|HnP]; simpl.
  - intros Hlen. exists [], x, l.
    assert (filter P l = []) as Hnil by (by apply length_zero_iff_nil; lia).
    assert (Forall (fun y => ~ P y) l) as Hall.
    { apply Forall_forall. intros y Hy HPy.
      assert (y ∈ filter P l) as Hin by (by apply list_elem_of_filter).
      rewrite Hnil in Hin. by apply not_elem_of_nil in Hin. }
    repeat split; [done|constructor|done|].
    rewrite filter_cons_False by tauto.
    clear -Hall. induction Hall as [|y l' Hy _ IHl]; [done|].
    by rewrite filter_cons_True, IHl.
  - intros Hlen. destruct (IH Hlen) as (l1 & y & l2 & -> & HPy & H1 & H2 & Hf).
    exists (x :: l1), y, l2. repeat split; [done|by constructor|done|].
    by rewrite filter_cons_True, Hf.
Qed.

End Arrays.

(** ** The store operations *)

Lemma asked_id api t n s :
  asked id api t n s =
    mkStore (games s) (gamesLoadingState s)
      (notices s ++ replicate n (Sent (api t))).
Proof.
  induction n as [|n IH].
  - simpl. rewrite app_nil_r. by destruct s.
  - change (asked id api t (S n) s)
      with (notify (Sent (api t)) (asked id api t n s)).
    rewrite IH, replicate_S_end, app_assoc. done.
Qed.

Lemma sent_quiet (req : Request) n :
  flashes (replicate n (Sent req)) = [] /\
  callbacks (replicate n (Sent req)) = [] /\
  modals (replicate n (Sent req)) = [].
Proof. induction n as [|n (Hf & Hc & Hm)]; [done|]. simpl. done. Qed.

Lemma asked_id_untouched api t n s : untouched s (asked id api t n s).
Proof.
  rewrite asked_id. unfold untouched. simpl.
  rewrite flashes_app, callbacks_app, modals_app.
  destruct (sent_quiet (api t) n) as (-> & -> & ->).
  by rewrite !app_nil_r.
Qed.

Lemma call_ran cb s :
  call cb s = mkStore (games s) (gamesLoadingState s) (notices s ++ map Called (ran cb)).
Proof. destruct cb; simpl; [done|]. rewrite app_nil_r. by destruct s. Qed.

(** C5: a create that is answered with a game puts that game at index 0
    of the collection; the collection is one entry longer and every entry
    it had is one position to the right, as it was. *)
Theorem createGame_prepends_the_new_game
    body onSuccess onError results w u t r :
  signed_in (login w) u t ->
  returned results = Some (Fulfilled r) ->
  has_key "name" (json r) = true ->
  let l := games (data w) in
  let l' := games (data (createGame body onSuccess onError results w)) in
  l' = json r :: l /\
  l' !! 0%nat = Some (json r) /\
  length l' = S (length l) /\
  forall i, l' !! S i = l !! i.
Proof.
  intros Hin Hret Hname l l'.
  assert (l' = json r :: l) as ->; [|done].
  subst l l'. unfold createGame.
  rewrite (guarded_data _ _ _ _ _ w u t) by done. rewrite Hret. simpl.
  unfold created. rewrite Hname, call_ran. done.
Qed.

Lemma createGame_prepends_the_new_game_witness :
  games (data (createGame (named 0 "Y") (Some "done") None
                 [Returns (Fulfilled (mkResponse 201 (named 3 "Y")))]
                 alice_world))
  = [named 3 "Y"; entry 5; entry 7; entry 9].
Proof.
  apply (createGame_prepends_the_new_game (named 0 "Y") (Some "done") None
           [Returns (Fulfilled (mkResponse 201 (named 3 "Y")))]
           alice_world alice "stale" (mkResponse 201 (named 3 "Y"))).
  - repeat split. intros Heq. discriminate Heq.
  - reflexivity.
  - vm_compute. reflexivity.
Defined.

(** C6: an update answered with status 200, on a collection that has an
    entry with the id, replaces the first entry with that id by the body
    of the response; every other position keeps its entry and the length
    stays. *)
Theorem updateGame_replaces_the_matching_entry
    gameId attributes onSuccess onError results w u t r :
  signed_in (login w) u t ->
  returned results = Some (Fulfilled r) ->
  status r = 200 ->
  (exists el, el ∈ games (data w) /\ id_is gameId el = true) ->
  let l := games (data w) in
  let l' :=
    games (data (updateGame gameId attributes onSuccess onError results w)) in
  exists (i : nat) el,
    l !! i = Some el /\ id_is gameId el = true /\
    (forall j el', (j < i)%nat -> l !! j = Some el' -> id_is gameId el' = false) /\
    l' = <[i := json r]> l /\
    l' !! i = Some (json r) /\
    (forall j, j <> i -> l' !! j = l !! j) /\
    length l' = length l.
Proof.
  intros Hin Hret Hstatus (el0 & Hel0 & Hid0) l l'.
  destruct (findIndex_found (id_is gameId) l el0 Hel0 Hid0) as (i & Hi).
  pose proof Hi as Hfirst.
  apply findIndex_first in Hfirst as (el & Hel & Hid & Hfirst).
  assert (l' = <[i := json r]> l) as ->.
  { subst l l'. unfold updateGame.
    rewrite (guarded_data _ _ _ _ _ w u t) by done. rewrite Hret. simpl.
    unfold updated. rewrite Hstatus. simpl. rewrite call_ran. simpl.
    fold (games (data w)). by rewrite Hi, assign_at. }
  exists i, el. repeat split; [done..| | |].
  - apply list_lookup_insert_eq. by eapply lookup_lt_Some.
  - intros j Hj. by apply list_lookup_insert_ne.
  - apply length_insert.
Qed.

Lemma updateGame_replaces_the_matching_entry_witness :
  games (data (updateGame 7 {[ "name" := Str "X" ]} None None
                 [Returns (Fulfilled (mkResponse 200 (named 7 "X")))]
                 alice_world))
  = [entry 5; named 7 "X"; entry 9].
Proof.
  destruct (updateGame_replaces_the_matching_entry 7 {[ "name" := Str "X" ]}
              None None [Returns (Fulfilled (mkResponse 200 (named 7 "X")))]
              alice_world alice "stale" (mkResponse 200 (named 7 "X")))
    as (i & el & Hel & Hid & Hfirst & Hl' & _).
  - repeat split. intros Heq. discriminate Heq.
  - reflexivity.
  - reflexivity.
  - exists (entry 7). split; [|reflexivity].
    apply list_elem_of_lookup. by exists 1%nat.
  - rewrite Hl'. simpl.
    destruct i as [|[|[|i]]]; simpl in Hel; try done;
      injection Hel as <-; vm_compute in Hid; discriminate Hid.
Defined.

(** C7: a delete answered with status 204, on a collection with exactly
    one entry of the id, leaves the collection without that entry: one
    entry shorter, no entry with the id, the entries before and after it
    as they were and in their order. *)
Theorem destroyGame_removes_the_matching_entry
    gameId onSuccess onError results w u t r :
  signed_in (login w) u t ->
  returned results = Some (Fulfilled r) ->
  status r = 204 ->
  length (filter (fun el => id_is gameId el = true) (games (data w))) = 1%nat ->
  let l := games (data w) in
  let l' := games (data (destroyGame gameId onSuccess onError results w)) in
  S (length l') = length l /\
  Forall (fun el => id_is gameId el = false) l' /\
  exists l1 el l2,
    l = (l1 ++ el :: l2)%list /\ id_is gameId el = true /\
    l' = (l1 ++ l2)%list.
Proof.
  intros Hin Hret Hstatus Hone. cbv zeta.
  assert (games (data (destroyGame gameId onSuccess onError results w)) =
          filter (fun el => id_is gameId el = false) (games (data w))) as ->.
  { unfold destroyGame.
    rewrite (guarded_data _ _ _ _ _ w u t) by done. rewrite Hret. simpl.
    unfold destroyed. rewrite Hstatus. simpl. by rewrite call_ran. }
  revert Hone. generalize (games (data w)). intros l Hone.
  destruct (filter_out_the_one _ l Hone)
    as (l1 & el & l2 & Hl & Hid & H1 & H2 & Hfilter).
  assert (filter (fun el => id_is gameId el = false) l = (l1 ++ l2)%list)
    as ->.
  { rewrite <- Hfilter. apply list_filter_iff. intros x.
    symmetry. apply not_true_iff_false. }
  split; [rewrite Hl, !length_app; simpl; lia|]. split.
  - apply Forall_app. split; eapply Forall_impl; eauto;
      intros x Hx; by apply not_true_iff_false.
  - by exists l1, el, l2.
Qed.

Lemma destroyGame_removes_the_matching_entry_witness :
  games (data (destroyGame 7 None None
                 [Returns (Fulfilled (mkResponse 204 ()))] alice_world))
  = [entry 5; entry 9].
Proof.
  destruct (destroyGame_removes_the_matching_entry 7 None None
              [Returns (Fulfilled (mkResponse 204 ()))]
              alice_world alice "stale" (mkResponse 204 ()))
    as (_ & _ & l1 & el & l2 & Hl & Hid & Hl').
  - repeat split. intros Heq. discriminate Heq.
  - reflexivity.
  - reflexivity.
  - vm_compute. reflexivity.
  - rewrite Hl'. simpl in Hl. unfold three_games in Hl.
    destruct l1 as [|a [|b [|c l1]]]; simpl in Hl.
    + injection Hl as <- <-. vm_compute in Hid. discriminate Hid.
    + injection Hl as <- <- <-. reflexivity.
    + injection Hl as <- <- <- <-. vm_compute in Hid. discriminate Hid.
    + injection Hl as _ _ _ Hnil. by destruct l1.
Defined.

(** C8: a load whose promise is rejected with a code other than 401 ends
    with an empty collection and the state [ERROR]; a load whose promise
    is fulfilled with a list ends with exactly that list as the collection
    and the state [DONE]. *)
Theorem fetchGames_outcome results w u t :
  signed_in (login w) u t ->
  let w' := fetchGames results w in
  (forall e, returned results = Some (Rejected e) -> code e <> 401 ->
     games (data w') = [] /\ gamesLoadingState (data w') = ERROR) /\
  (forall r l, returned results = Some (Fulfilled r) -> json r = Arr l ->
     games (data w') = l /\ gamesLoadingState (data w') = DONE).
Proof.
  intros Hin w'. subst w'. unfold fetchGames.
  rewrite (guarded_data _ _ _ _ _ w u t) by done. split.
  - intros e -> Hcode. simpl. unfold fetch_failed.
    destruct (Z.eqb_spec (code e) 401) as [Heq|_]; [done|].
    unfold handleApiError. by destruct (message e).
  - intros r l -> Hjson. simpl. unfold fetched. by rewrite Hjson.
Qed.

Lemma fetchGames_outcome_witness :
  (let w' := fetchGames [Returns (Rejected (mkApiError 500 (Text "down")))]
               alice_world in
   games (data w') = [] /\ gamesLoadingState (data w') = ERROR) /\
  (let w' := fetchGames
               [Returns (Fulfilled (mkResponse 200 (Arr [entry 2; entry 1])))]
               alice_world in
   games (data w') = [entry 2; entry 1] /\ gamesLoadingState (data w') = DONE).
Proof.
  split.
  - apply (proj1 (fetchGames_outcome
                    [Returns (Rejected (mkApiError 500 (Text "down")))]
                    alice_world alice "stale"
                    ltac:(repeat split; intros Heq; discriminate Heq))
             (mkApiError 500 (Text "down"))).
    + reflexivity.
    + simpl. lia.
  - apply (proj2 (fetchGames_outcome
                    [Returns (Fulfilled (mkResponse 200 (Arr [entry 2; entry 1])))]
                    alice_world alice "stale"
                    ltac:(repeat split; intros Heq; discriminate Heq))
             (mkResponse 200 (Arr [entry 2; entry 1]))).
    + reflexivity.
    + reflexivity.
Defined.

(** C9: [handleApiError] shows one error flash.  For a message that is a
    list of N strings the flash carries that list and a header that starts
    with N; for any other message it carries the not-found text when the
    code is 404 and the unexpected-error text for every other code.  The
    collection and the loading state stay. *)
Theorem handleApiError_classifies e s :
  games (handleApiError e s) = games s /\
  gamesLoadingState (handleApiError e s) = gamesLoadingState s /\
  (forall l, message e = Lines l ->
     notices (handleApiError e s) =
       (notices s ++
        [SetFlashProps
           (Flash.mk false Flash.error
              (Some (pretty (length l) +:+
                     " error(s) prevented your game from being saved:"))
              (Lines l))])%list) /\
  (forall m, message e = Text m -> code e = 404 ->
     notices (handleApiError e s) =
       (notices s ++
        [SetFlashProps
           (Flash.mk false Flash.error None (Text NOT_FOUND_MESSAGE))])%list) /\
  (forall m, message e = Text m -> code e <> 404 ->
     notices (handleApiError e s) =
       (notices s ++
        [SetFlashProps
           (Flash.mk false Flash.error None
              (Text UNEXPECTED_ERROR_MESSAGE))])%list).
Proof.
  unfold handleApiError. repeat split.
  - by destruct (message e).
  - by destruct (message e).
  - by intros l ->.
  - intros m -> ->. done.
  - intros m -> Hcode. by destruct (Z.eqb_spec (code e) 404).
Qed.

Lemma handleApiError_classifies_witness :
  let s := mkStore three_games DONE [] in
  flashes (notices (handleApiError
                      (mkApiError 422 (Lines ["Name is taken"; "Name is long"])) s))
    = [Flash.mk false Flash.error
         (Some "2 error(s) prevented your game from being saved:")
         (Lines ["Name is taken"; "Name is long"])] /\
  flashes (notices (handleApiError (mkApiError 404 (Text "Not found")) s))
    = [Flash.mk false Flash.error None (Text NOT_FOUND_MESSAGE)] /\
  flashes (notices (handleApiError (mkApiError 500 (Text "Down")) s))
    = [Flash.mk false Flash.error None (Text UNEXPECTED_ERROR_MESSAGE)].
Proof.
  intros s.
  destruct (handleApiError_classifies
              (mkApiError 422 (Lines ["Name is taken"; "Name is long"])) s)
    as (_ & _ & Hlist & _ & _).
  destruct (handleApiError_classifies (mkApiError 404 (Text "Not found")) s)
    as (_ & _ & _ & Hmissing & _).
  destruct (handleApiError_classifies (mkApiError 500 (Text "Down")) s)
    as (_ & _ & _ & _ & Hother).
  rewrite (Hlist _ eq_refl), (Hmissing _ eq_refl eq_refl).
  rewrite (Hother _ eq_refl); [|simpl; lia].
  repeat split.
Defined.

Lemma modal_requests (l : list bool) :
  flashes (map SetModalProps l) = [] /\
  callbacks (map SetModalProps l) = [] /\
  modals (map SetModalProps l) = l.
Proof.
  induction l as [|h l (IHf & IHc & IHm)]; [done|].
  simpl. by rewrite IHm.
Qed.

(** The flashes, callbacks and modal requests of a successful mutation,
    after those of the requests. *)
Lemma applied_notices s s0 flash hide cb :
  flashes (notices s0) = flashes (notices s) /\
  callbacks (notices s0) = callbacks (notices s) /\
  modals (notices s0) = modals (notices s) ->
  let s' := call cb (setFlashProps flash (foldr setModalProps s0 hide)) in
  flashes (notices s') = (flashes (notices s) ++ [flash])%list /\
  callbacks (notices s') = (callbacks (notices s) ++ ran cb)%list /\
  modals (notices s') = (modals (notices s) ++ rev hide)%list.
Proof.
  intros (Hf & Hc & Hm) s'. subst s'. rewrite call_ran. simpl.
  assert (Hmodal :
    notices (foldr setModalProps s0 hide) =
      (notices s0 ++ map SetModalProps (rev hide))%list).
  { induction hide as [|h hide IH]; simpl; [by rewrite app_nil_r|].
    by rewrite IH, map_app, app_assoc. }
  rewrite Hmodal.
  rewrite !flashes_app, !callbacks_app, !modals_app, Hf, Hc, Hm.
  destruct (modal_requests (rev hide)) as (-> & -> & ->).
  destruct cb; simpl; by rewrite ?app_nil_r.
Qed.

Lemma requested_notices l api t n s :
  let s0 := setGames l (asked id api t n s) in
  flashes (notices s0) = flashes (notices s) /\
  callbacks (notices s0) = callbacks (notices s) /\
  modals (notices s0) = modals (notices s).
Proof. by destruct (asked_id_untouched api t n s) as (_ & _ & Hq). Qed.

(** C10: the reaction to a fulfilled promise acts on one shape of response
    only — a body with a [name] key for a create, status 200 for an update,
    status 204 for a delete.  On that shape it shows its success flash and
    runs [onSuccess] (the update also asks for the modal to be hidden); on
    any other fulfilled response the collection, the loading state, the
    flashes, the callbacks and the modal are what they were. *)
Theorem mutations_act_on_one_response_shape w u t :
  signed_in (login w) u t ->
  (forall body onSuccess onError results r,
     returned results = Some (Fulfilled r) ->
     let s' := data (createGame body onSuccess onError results w) in
     (has_key "name" (json r) = true ->
        games s' = json r :: games (data w) /\
        flashes (notices s') =
          (flashes (notices (data w)) ++
           [success_flash "Success! Your game has been created."])%list /\
        callbacks (notices s') =
          (callbacks (notices (data w)) ++ ran onSuccess)%list) /\
     (has_key "name" (json r) = false -> untouched (data w) s')) /\
  (forall gameId attributes onSuccess onError results r,
     returned results = Some (Fulfilled r) ->
     let s' :=
       data (updateGame gameId attributes onSuccess onError results w) in
     (status r = 200 ->
        flashes (notices s') =
          (flashes (notices (data w)) ++
           [success_flash "Success! Your game has been updated."])%list /\
        callbacks (notices s') =
          (callbacks (notices (data w)) ++ ran onSuccess)%list /\
        modals (notices s') = (modals (notices (data w)) ++ [true])%list) /\
     (status r <> 200 -> untouched (data w) s')) /\
  (forall gameId onSuccess onError results r,
     returned results = Some (Fulfilled r) ->
     let s' := data (destroyGame gameId onSuccess onError results w) in
     (status r = 204 ->
        games s' =
          filter (fun el => id_is gameId el = false) (games (data w)) /\
        flashes (notices s') =
          (flashes (notices (data w)) ++
           [success_flash "Success! Your game has been deleted."])%list /\
        callbacks (notices s') =
          (callbacks (notices (data w)) ++ ran onSuccess)%list) /\
     (status r <> 204 -> untouched (data w) s')).
Proof.
  intros Hin. split; [|split].
  - intros body onSuccess onError results r Hret s'. subst s'.
    unfold createGame. rewrite (guarded_data _ _ _ _ _ w u t) by done.
    rewrite Hret. simpl. unfold created. split; intros ->.
    + split; [by rewrite call_ran|].
      pose proof (applied_notices (data w) _
                    (success_flash "Success! Your game has been created.")
                    [] onSuccess
                    (requested_notices (json r :: games (data w))
                       (PostGames body) t (attempts results) (data w)))
        as (Hf & Hc & _).
      by split.
    + apply asked_id_untouched.
  - intros gameId attributes onSuccess onError results r Hret s'. subst s'.
    unfold updateGame. rewrite (guarded_data _ _ _ _ _ w u t) by done.
    rewrite Hret. simpl. unfold updated. split.
    + intros ->. simpl.
      exact (applied_notices (data w) _
               (success_flash "Success! Your game has been updated.")
               [true] onSuccess
               (requested_notices
                  (assign (findIndex (id_is gameId) (games (data w)))
                     (json r) (games (data w)))
                  (PatchGame gameId attributes) t (attempts results)
                  (data w))).
    + intros Hstatus. destruct (Z.eqb_spec (status r) 200); [done|].
      apply asked_id_untouched.
  - intros gameId onSuccess onError results r Hret s'. subst s'.
    unfold destroyGame. rewrite (guarded_data _ _ _ _ _ w u t) by done.
    rewrite Hret. simpl. unfold destroyed. split.
    + intros ->. simpl. split; [by rewrite call_ran|].
      pose proof (applied_notices (data w) _
                    (success_flash "Success! Your game has been deleted.")
                    [] onSuccess
                    (requested_notices
                       (filter (fun el => id_is gameId el = false)
                          (games (data w)))
                       (DeleteGame gameId) t (attempts results) (data w)))
        as (Hf & Hc & _).
      by split.
    + intros Hstatus. destruct (Z.eqb_spec (status r) 204); [done|].
      apply asked_id_untouched.
Qed.

Lemma mutations_act_on_one_response_shape_witness :
  untouched (data alice_world)
    (data (createGame (entry 1) (Some "done") None
             [Returns (Fulfilled
                (mkResponse 422 {[ "errors" := Strs ["Name is taken"] ]}))]
             alice_world)) /\
  untouched (data alice_world)
    (data (updateGame 7 {[ "name" := Str "X" ]} (Some "done") None
             [Returns (Fulfilled (mkResponse 204 (named 7 "X")))]
             alice_world)) /\
  untouched (data alice_world)
    (data (destroyGame 7 (Some "done") None
             [Returns (Fulfilled (mkResponse 200 ()))] alice_world)).
Proof.
  destruct (mutations_act_on_one_response_shape alice_world alice "stale")
    as (Hcreate & Hupdate & Hdestroy).
  { repeat split. intros Heq. discriminate Heq. }
  split; [|split].
  - apply (proj2 (Hcreate (entry 1) (Some "done") None
             [Returns (Fulfilled
                (mkResponse 422 {[ "errors" := Strs ["Name is taken"] ]}))]
             (mkResponse 422 {[ "errors" := Strs ["Name is taken"] ]})
             eq_refl)).
    vm_compute. reflexivity.
  - apply (proj2 (Hupdate 7 {[ "name" := Str "X" ]} (Some "done") None
             [Returns (Fulfilled (mkResponse 204 (named 7 "X")))]
             (mkResponse 204 (named 7 "X")) eq_refl)).
    simpl. lia.
  - apply (proj2 (Hdestroy 7 (Some "done") None
             [Returns (Fulfilled (mkResponse 200 ()))]
             (mkResponse 200 ()) eq_refl)).
    simpl. lia.
Defined.

(** ** One entry per id *)

Lemma id_is_game_id gameId el :
  id_is gameId el = true <-> game_id el = Some gameId.
Proof.
  unfold id_is, game_id. destruct (el !! "id") as [[n| | | |]|]; try done.
  rewrite bool_decide_eq_true. split; congruence.
Qed.

Lemma ids_cons el l :
  ids (el :: l) =
    match game_id el with Some n => n :: ids l | None => ids l end.
Proof. done. Qed.

(** Putting an entry in the place of one with the same id keeps the ids. *)
Lemma ids_insert_same_id l (i : nat) el v :
  l !! i = Some el -> game_id v = game_id el -> ids (<[i := v]> l) = ids l.
Proof.
  revert i. induction l as [|x l IH]; intros [|i] Hel Hid; try done.
  - injection Hel as ->.
    change (<[0%nat := v]> (el :: l)) with (v :: l).
    by rewrite !ids_cons, Hid.
  - change (<[S i := v]> (x :: l)) with (x :: <[i := v]> l).
    by rewrite !ids_cons, (IH i).
Qed.

Lemma ids_assign gameId v l :
  game_id v = Some gameId ->
  ids (assign (findIndex (id_is gameId) l) v l) = ids l.
Proof.
  intros Hv. pose proof (findIndex_lt_length (id_is gameId) l) as Hrange.
  destruct (decide (findIndex (id_is gameId) l = -1)) as [->|Hfound]; [done|].
  assert (findIndex (id_is gameId) l
          = Z.of_nat (Z.to_nat (findIndex (id_is gameId) l))) as Hi by lia.
  rewrite Hi, assign_at.
  apply findIndex_first in Hi as (el & Hel & Hid & _).
  apply id_is_game_id in Hid.
  eapply ids_insert_same_id; [done|congruence].
Qed.

Lemma ids_filter_sublist (P : Game -> Prop) `{!forall el, Decision (P el)} l :
  ids (filter P l) `sublist_of` ids l.
Proof.
  induction l as [|el l IH]; [done|].
  rewrite filter_cons, (ids_cons el l). destruct (decide (P el)).
  - rewrite ids_cons. destruct (game_id el); [by constructor|done].
  - destruct (game_id el); [by constructor|done].
Qed.

Lemma unique_ids_filter (P : Game -> Prop) `{!forall el, Decision (P el)} l :
  unique_ids l -> unique_ids (filter P l).
Proof.
  intros Hl. eapply sublist_NoDup; [exact Hl|]. apply ids_filter_sublist.
Qed.

Lemma unique_ids_cons el l :
  (forall n, game_id el = Some n -> n ∉ ids l) ->
  unique_ids l -> unique_ids (el :: l).
Proof.
  intros Hfresh Hl. unfold unique_ids. rewrite ids_cons.
  destruct (game_id el) as [n|]; [|done].
  apply NoDup_cons. split; [by apply Hfresh|done].
Qed.

(** The promise a call waits for is one the API client returned, when it
    settles at all. *)
Lemma returned_elem {R : Type} (results : list (ApiResult R)) p :
  returned results = Some p -> p = Unsettled \/ Returns p ∈ results.
Proof.
  destruct results as [|[e1|p1] [|[e2|p2] rest]]; simpl; intros Hp;
    try (injection Hp as <-); try done; try (by left); right.
  - apply list_elem_of_further, list_elem_of_here.
  - apply list_elem_of_here.
  - apply list_elem_of_here.
  - apply list_elem_of_here.
Qed.

Lemma guard_signed_in s :
  no_user (user s) || no_token (token s) = false ->
  exists u t, signed_in s u t.
Proof.
  unfold signed_in. destruct (user s) as [u|], (token s) as [t|]; simpl;
    try done.
  intros Hne. exists u, t. repeat split.
  by apply bool_decide_eq_false in Hne.
Qed.

Lemma mutation_failed_games {R : Type} (onFulfilled : R -> Store -> Store)
    onError e s :
  games (then_catch onFulfilled (mutation_failed onError) s (Rejected e))
  = games s.
Proof.
  simpl. unfold mutation_failed. destruct (code e =? 401); [done|].
  rewrite call_ran. simpl. unfold handleApiError.
  destruct (message e); done.
Qed.

Lemma asked_loading_games t n s :
  games (asked (setGamesLoadingState LOADING) GetGames t n s) = games s.
Proof. by apply asked_games. Qed.

Lemma asked_id_games api t n s : games (asked id api t n s) = games s.
Proof. by rewrite asked_id. Qed.

(** One call keeps the ids of the collection apart. *)
Lemma perform_unique_ids c w :
  unique_ids (games (data w)) ->
  answers_as_specified c (games (data w)) ->
  unique_ids (games (data (perform c w))).
Proof.
  intros Huniq Hanswers.
  destruct (no_user (user (login w)) || no_token (token (login w)))
    eqn:Hguard.
  { destruct c; unfold perform, fetchGames, createGame, updateGame,
      destroyGame; by rewrite guarded_skipped. }
  destruct (guard_signed_in _ Hguard) as (u & t & Hin).
  destruct c as [results|body onS onE results|gameId attrs onS onE results
                |gameId onS onE results];
    unfold perform, fetchGames, createGame, updateGame, destroyGame;
    rewrite (guarded_data _ _ _ _ _ w u t) by done; cbv zeta;
    (destruct (returned results) as [p|] eqn:Hret;
      [|by rewrite ?asked_loading_games, ?asked_id_games]);
    (destruct (returned_elem _ _ Hret) as [->|Helem];
      [by rewrite then_catch_unsettled, ?asked_loading_games, ?asked_id_games|]);
    (destruct p as [r|e|];
      [| |by rewrite then_catch_unsettled, ?asked_loading_games,
              ?asked_id_games]).
  - simpl. unfold fetched. destruct (json r) as [o|l'] eqn:Hjson.
    + by rewrite asked_loading_games.
    + simpl. by eapply Hanswers.
  - simpl. unfold fetch_failed. destruct (code e =? 401); simpl.
    + by rewrite asked_loading_games.
    + apply NoDup_nil_2.
  - simpl. unfold created. destruct (has_key "name" (json r)).
    + rewrite call_ran. simpl. apply unique_ids_cons; [|done].
      intros n Hn. by eapply Hanswers.
    + by rewrite asked_id_games.
  - by rewrite mutation_failed_games, asked_id_games.
  - simpl. unfold updated. destruct (status r =? 200).
    + rewrite call_ran. simpl. unfold unique_ids.
      rewrite ids_assign; [done|]. by apply Hanswers.
    + by rewrite asked_id_games.
  - by rewrite mutation_failed_games, asked_id_games.
  - simpl. unfold destroyed. destruct (status r =? 204).
    + rewrite call_ran. simpl. by apply unique_ids_filter.
    + by rewrite asked_id_games.
  - by rewrite mutation_failed_games, asked_id_games.
Qed.

Lemma run_cons c calls w : run (c :: calls) w = run calls (perform c w).
Proof. done. Qed.

(** C4: from a collection with one entry per id, and with a server that
    answers as specified, the collection has one entry per id after every
    call of a run of loads, creates, updates and deletes. *)
Theorem collection_keeps_one_entry_per_id calls w :
  unique_ids (games (data w)) ->
  served_as_specified calls w ->
  forall k, unique_ids (games (data (run (take k calls) w))).
Proof.
  revert w. induction calls as [|c calls IH]; intros w Huniq Hserved k.
  - by rewrite take_nil.
  - destruct k as [|k]; [done|].
    destruct Hserved as [Hc Hcalls].
    rewrite firstn_cons, run_cons. apply IH; [|done].
    by apply perform_unique_ids.
Qed.

Lemma collection_keeps_one_entry_per_id_witness :
  unique_ids
    (games (data (run
       [Create (named 0 "Y") None None
          [Returns (Fulfilled (mkResponse 201 (named 3 "Y")))];
        Update 7 {[ "name" := Str "X" ]} None None
          [Returns (Fulfilled (mkResponse 200 (named 7 "X")))];
        Destroy 5 None None [Returns (Fulfilled (mkResponse 204 ()))];
        Load [Returns (Fulfilled (mkResponse 200 (Arr [entry 2; entry 1])))]]
       alice_world))).
Proof.
  apply (collection_keeps_one_entry_per_id
           [Create (named 0 "Y") None None
              [Returns (Fulfilled (mkResponse 201 (named 3 "Y")))];
            Update 7 {[ "name" := Str "X" ]} None None
              [Returns (Fulfilled (mkResponse 200 (named 7 "X")))];
            Destroy 5 None None [Returns (Fulfilled (mkResponse 204 ()))];
            Load [Returns (Fulfilled (mkResponse 200 (Arr [entry 2; entry 1])))]]
           alice_world) with (k := 4%nat).
  - by_evaluation.
  - repeat split.
    + intros r n Hr Hn. apply list_elem_of_singleton in Hr.
      injection Hr as ->. vm_compute in Hn. injection Hn as <-.
      by_evaluation.
    + intros r Hr. apply list_elem_of_singleton in Hr.
      injection Hr as ->. by vm_compute.
    + intros r l' Hr Hjson. apply list_elem_of_singleton in Hr.
      injection Hr as ->. injection Hjson as <-.
      by_evaluation.
Defined.

(** * Further properties *)

(** ** The retry loop, whatever the operation *)

(** X1: a call of [withTokenRefresh] calls the operation twice at most,
    asks for one token at most and signs out once at most, whatever the
    operation does; a sign-out comes only after two calls and a refresh;
    and every call of the operation is made with the token held when
    [withTokenRefresh] was called. *)
Theorem withTokenRefresh_is_bounded {St : Type} (fn : ApiCall St) s st :
  exists new,
    effects (session (withTokenRefresh fn s st)) = (effects s ++ new)%list /\
    (length (invocations new) <= 2)%nat /\
    (refreshes new <= 1)%nat /\
    (sign_outs new <= 1)%nat /\
    (sign_outs new = 1%nat ->
       refreshes new = 1%nat /\ length (invocations new) = 2%nat) /\
    (forall t', t' ∈ invocations new -> token s = Some t').
Proof.
  assert (Hmember : forall (t t' : string) l,
            t' ∈ l -> Forall (eq t) l -> Some t = Some t').
  { intros t t' l Ht' Hall. rewrite Forall_forall in Hall.
    f_equal. by apply Hall. }
  destruct (no_user (user s) || no_token (token s)) eqn:Hguard.
  { exists []. rewrite withTokenRefresh_skips by done. simpl.
    rewrite app_nil_r. repeat split; try done; try (vm_compute; lia).
    intros t' Ht'. by apply not_elem_of_nil in Ht'. }
  destruct (guard_signed_in _ Hguard) as (u & t & Hin).
  pose proof Hin as (_ & Ht & _). rewrite Ht.
  destruct (fn t st) as [[|e1] st1] eqn:Hfn1;
    [exists [Invoked t]; erewrite withTokenRefresh_returns by done
    |destruct (fn t st1) as [[|e2] st2] eqn:Hfn2;
      [exists [Invoked t; GetIdToken true; Invoked t];
       erewrite withTokenRefresh_retry_returns by done
      |exists [Invoked t; GetIdToken true; Invoked t; SignOut];
       erewrite withTokenRefresh_retry_raises by done]];
    simpl; rewrite <- ?app_assoc; simpl;
    (split; [done|]);
    (split; [lia|]);
    (split; [vm_compute; lia|]);
    (split; [vm_compute; lia|]);
    (split; [vm_compute; try done; by split|]);
    intros t' Ht'; apply (Hmember t t' _ Ht'); vm_compute;
    by repeat constructor.
Qed.

Lemma withTokenRefresh_is_bounded_witness :
  exists new,
    effects (session (withTokenRefresh (failing [500; 404]) alice_session
                        0%nat)) = new /\
    sign_outs new = 1%nat /\ refreshes new = 1%nat /\
    length (invocations new) = 2%nat.
Proof.
  destruct (withTokenRefresh_is_bounded (failing [500; 404]) alice_session
              0%nat) as (new & Hnew & _ & _ & _ & Hout & _).
  exists new. split; [exact Hnew|].
  assert (Hone : sign_outs new = 1%nat).
  { apply (f_equal sign_outs) in Hnew. revert Hnew. vm_compute.
    intros Hnew. exact (eq_sym Hnew). }
  destruct (Hout Hone) as (Hrefresh & Hcalls).
  split; [exact Hone|]. split; [exact Hrefresh|exact Hcalls].
Defined.

(** X2: the [catch] of the loop does not look at the error.  An operation
    that throws twice, with whatever codes, is retried after one request
    for a token and ends in one sign-out; the state the operation reached
    in its second call is kept. *)
Theorem two_throws_of_any_kind_sign_out
    {St : Type} (fn : ApiCall St) s st u t e1 st1 e2 st2 :
  signed_in s u t ->
  fn t st = (Throw e1, st1) ->
  fn t st1 = (Throw e2, st2) ->
  let fr := withTokenRefresh fn s st in
  effects (session fr) =
    (effects s ++ [Invoked t; GetIdToken true; Invoked t; SignOut])%list /\
  inner fr = st2 /\
  refreshing fr = [getIdToken u true].
Proof.
  intros Hin Hfn1 Hfn2 fr. subst fr.
  erewrite withTokenRefresh_retry_raises by done. simpl.
  by rewrite <- !app_assoc.
Qed.

(** X3: an operation whose first call returns is called once; no token is
    asked for, nobody is signed out, nothing is left to run and the token
    stays. *)
Theorem first_call_returning_ends_the_loop
    {St : Type} (fn : ApiCall St) s st u t st1 :
  signed_in s u t ->
  fn t st = (Normal, st1) ->
  let fr := withTokenRefresh fn s st in
  effects (session fr) = (effects s ++ [Invoked t])%list /\
  inner fr = st1 /\
  refreshing fr = [] /\
  session (settle_refreshes fr) = session fr /\
  token (session fr) = Some t.
Proof.
  intros Hin Hfn fr. subst fr.
  erewrite withTokenRefresh_returns by done.
  by destruct Hin as (_ & Ht & _).
Qed.

(** X4: the empty string is no token.  With a user and the token [""] the
    operation is not called and nothing else happens. *)
Theorem empty_token_is_no_token {St : Type} (fn : ApiCall St) s st :
  token s = Some "" ->
  withTokenRefresh fn s st = skipped s st /\
  forall (c : Call) (d : Store), perform c (mkWorld s d) = mkWorld s d.
Proof.
  intros Hempty.
  assert (Hguard : no_user (user s) || no_token (token s) = true).
  { rewrite Hempty. apply orb_true_r. }
  split; [by apply withTokenRefresh_skips|].
  intros c d. destruct c; simpl; by apply guarded_skipped.
Qed.

(** X5: when the identity provider rejects the request for a token, the
    retry is made all the same, nothing records the failure and the token
    that was rejected stays stored. *)
Theorem rejected_refresh_is_silent
    {St : Type} (fn : ApiCall St) s st u t e st1 :
  signed_in s u t ->
  fn t st = (Throw e, st1) ->
  getIdToken u true = None ->
  let fr := withTokenRefresh fn s st in
  invocations (effects (session fr)) =
    (invocations (effects s) ++ [t; t])%list /\
  session (settle_refreshes fr) = session fr /\
  token (session (settle_refreshes fr)) = Some t.
Proof.
  intros Hin Hfn1 Hnone fr. subst fr.
  destruct (fn t st1) as [[|e'] st2] eqn:Hfn2;
    [erewrite withTokenRefresh_retry_returns by done
    |erewrite withTokenRefresh_retry_raises by done];
    destruct Hin as (_ & Ht & _); unfold settle_refreshes; simpl;
    rewrite Hnone; simpl; rewrite !invocations_app; simpl;
    by rewrite ?app_nil_r, <- ?app_assoc.
Qed.

Lemma two_throws_of_any_kind_sign_out_witness :
  effects (session (withTokenRefresh (failing [500; 404]) alice_session 0%nat))
  = [Invoked "stale"; GetIdToken true; Invoked "stale"; SignOut].
Proof.
  apply (two_throws_of_any_kind_sign_out (failing [500; 404]) alice_session
           0%nat alice "stale" (mkApiError 500 (Text "Failed")) 1%nat
           (mkApiError 404 (Text "Failed")) 2%nat).
  - repeat split. intros Heq. discriminate Heq.
  - reflexivity.
  - reflexivity.
Defined.

Lemma first_call_returning_ends_the_loop_witness :
  effects (session (withTokenRefresh (failing []) alice_session 0%nat))
  = [Invoked "stale"].
Proof.
  apply (first_call_returning_ends_the_loop (failing []) alice_session
           0%nat alice "stale" 1%nat).
  - repeat split. intros Heq. discriminate Heq.
  - reflexivity.
Defined.

Lemma empty_token_is_no_token_witness :
  let s := mkSession (Some alice) (Some "") [] in
  withTokenRefresh (failing []) s 0%nat = skipped s 0%nat.
Proof.
  apply (empty_token_is_no_token (failing [])
           (mkSession (Some alice) (Some "") []) 0%nat).
  reflexivity.
Defined.

Lemma rejected_refresh_is_silent_witness :
  let fr := withTokenRefresh (failing [401]) bob_session 0%nat in
  invocations (effects (session fr)) = ["stale"; "stale"] /\
  token (session (settle_refreshes fr)) = Some "stale".
Proof.
  destruct (rejected_refresh_is_silent (failing [401]) bob_session 0%nat
              bob "stale" (mkApiError 401 (Text "Failed")) 1%nat)
    as (Hcalls & _ & Htoken).
  - repeat split. intros Heq. discriminate Heq.
  - reflexivity.
  - reflexivity.
  - split; [exact Hcalls|exact Htoken].
Defined.

(** ** What a store call leaves behind *)

Lemma sent_app l1 l2 : sent (l1 ++ l2) = (sent l1 ++ sent l2)%list.
Proof. unfold sent. apply omap_app. Qed.

Lemma unhandled_app l1 l2 :
  unhandled (l1 ++ l2) = (unhandled l1 ++ unhandled l2)%list.
Proof. unfold unhandled. apply omap_app. Qed.

Lemma settle_refreshes_session {St : Type} (fr : Frame St) :
  session (settle_refreshes fr) =
    foldl on_refreshed (session fr) (refreshing fr).
Proof.
  unfold settle_refreshes. simpl. generalize (refreshing fr). intros ps.
  revert fr. induction ps as [|p ps IH]; intros fr; [done|].
  simpl. rewrite IH. by destruct p.
Qed.

Section GuardedCases.

Context {R : Type}.
Variables (before : Store -> Store) (api : string -> Request).
Variables (onFulfilled : R -> Store -> Store).
Variables (onRejected : ApiError -> Store -> Completion * Store).

(** The store after a guarded call, for every session: as it was, or the
    reaction to one promise run on the store as the requests left it. *)
Lemma guarded_cases results w :
  guarded before api onFulfilled onRejected results w = w \/
  exists u t p,
    signed_in (login w) u t /\
    (p = Unsettled \/ returned results = Some p) /\
    data (guarded before api onFulfilled onRejected results w) =
      then_catch onFulfilled onRejected
        (asked before api t (attempts results) (data w)) p.
Proof.
  destruct (no_user (user (login w)) || no_token (token (login w)))
    eqn:Hguard; [left; by apply guarded_skipped|].
  right. destruct (guard_signed_in _ Hguard) as (u & t & Hin).
  exists u, t. rewrite (guarded_data _ _ _ _ _ w u t) by done. cbv zeta.
  destruct (returned results) as [p|] eqn:Hret.
  - exists p. auto.
  - exists Unsettled. auto.
Qed.

(** The requests of a call that passed the guard: one per attempt, all
    with the token the call started with. *)
Lemma asked_sent t n s :
  (forall s', notices (before s') = notices s') ->
  sent (notices (asked before api t n s)) =
    (sent (notices s) ++ replicate n (api t))%list.
Proof.
  intros Hbefore. induction n as [|n IH]; [by rewrite app_nil_r|].
  change (asked before api t (S n) s)
    with (notify (Sent (api t)) (before (asked before api t n s))).
  rewrite replicate_S_end. simpl.
  rewrite sent_app, Hbefore, IH. simpl. by rewrite app_assoc.
Qed.

Lemma asked_loading t n s :
  (forall s', gamesLoadingState (before s') = gamesLoadingState s') ->
  gamesLoadingState (asked before api t n s) = gamesLoadingState s.
Proof.
  intros Hbefore. induction n as [|n IH]; [done|].
  simpl. by rewrite Hbefore.
Qed.

Lemma asked_unhandled t n s :
  (forall s', notices (before s') = notices s') ->
  unhandled (notices (asked before api t n s)) = unhandled (notices s).
Proof.
  intros Hbefore. induction n as [|n IH]; [done|].
  simpl. rewrite unhandled_app, Hbefore. simpl. by rewrite app_nil_r.
Qed.

(** The two phases of a guarded call, put together again. *)
Lemma guarded_in_two_phases results w :
  guarded before api onFulfilled onRejected results w =
    let i := issue before api results w in
    refresh_answered (answers i)
      (respond onFulfilled onRejected (promises i) (after i)).
Proof.
  unfold guarded, issue, respond, refresh_answered, api_call. cbv zeta.
  by rewrite settle_refreshes_session.
Qed.

(** What a call that passed the guard leaves to its caller. *)
Lemma issue_after (results : list (ApiResult R)) w u t :
  signed_in (login w) u t ->
  data (after (issue before api results w)) =
    asked before api t (attempts results) (data w) /\
  promises (issue before api results w) =
    match returned results with Some p => [p] | None => [] end /\
  user (login (after (issue before api results w))) = Some u /\
  token (login (after (issue before api results w))) = Some t.
Proof.
  intros Hin. unfold issue, api_call. pose proof Hin as (Hu & Ht & _).
  destruct results as [|[e1|p1] [|[e2|p2] rest]];
    [erewrite withTokenRefresh_returns by (done || reflexivity)
    |erewrite withTokenRefresh_retry_returns by (done || reflexivity)
    |erewrite withTokenRefresh_retry_raises by (done || reflexivity)
    |erewrite withTokenRefresh_retry_returns by (done || reflexivity)
    |erewrite withTokenRefresh_returns by (done || reflexivity)
    |erewrite withTokenRefresh_returns by (done || reflexivity)
    |erewrite withTokenRefresh_returns by (done || reflexivity)];
    done.
Qed.

End GuardedCases.

(** What the reactions of a promise keep, given that each of them keeps
    it. *)
Section Kept.

Context {R X : Type}.
Variables (f : Store -> X).
Variables (onFulfilled : R -> Store -> Store).
Variables (onRejected : ApiError -> Store -> Completion * Store).
Hypothesis fulfilled_keeps : forall r s, f (onFulfilled r s) = f s.
Hypothesis rejected_keeps : forall e s, f (onRejected e s).2 = f s.
Hypothesis unhandled_keeps :
  forall e s, f (notify (UnhandledRejection e) s) = f s.

Lemma then_catch_keeps s p :
  f (then_catch onFulfilled onRejected s p) = f s.
Proof.
  destruct p as [r|e|]; simpl; [done| |done].
  pose proof (rejected_keeps e s) as Hkept.
  destruct (onRejected e s) as [[|e'] s']; simpl in *; [done|].
  by rewrite unhandled_keeps.
Qed.

End Kept.

Section SessionAfterGuarded.

Context {R : Type}.
Variables (before : Store -> Store) (api : string -> Request).
Variables (onFulfilled : R -> Store -> Store).
Variables (onRejected : ApiError -> Store -> Completion * Store).

Lemma guarded_keeps_session results w :
  let s' := login (guarded before api onFulfilled onRejected results w) in
  user s' = user (login w) /\
  (token s' = token (login w) \/
   exists u t', user (login w) = Some u /\ getIdToken u true = Some t' /\
     token s' = Some t').
Proof.
  cbv zeta.
  destruct (no_user (user (login w)) || no_token (token (login w)))
    eqn:Hguard; [rewrite guarded_skipped by done; auto|].
  destruct (guard_signed_in _ Hguard) as (u & t & Hin).
  rewrite (guarded_login _ _ _ _ _ w u t) by done.
  destruct Hin as (Hu & Ht & _).
  destruct results as [|[e1|p1] [|[e2|p2] rest]]; simpl;
    try (destruct (getIdToken u true) as [t'|] eqn:Hfresh; simpl);
    (split; [done|]);
    first [by left | right; by exists u, t'].
Qed.

End SessionAfterGuarded.

Lemma perform_keeps_session c w :
  user (login (perform c w)) = user (login w) /\
  (token (login (perform c w)) = token (login w) \/
   exists u t', user (login w) = Some u /\ getIdToken u true = Some t' /\
     token (login (perform c w)) = Some t').
Proof. destruct c; apply guarded_keeps_session. Qed.

(** X6: no run of store calls changes the user, and the token after a run
    is the token it started with or the answer of the identity provider to
    a forced refresh: the store never clears a token and never invents
    one. *)
Theorem session_survives_every_run calls w :
  user (login (run calls w)) = user (login w) /\
  (token (login (run calls w)) = token (login w) \/
   exists u t', user (login w) = Some u /\ getIdToken u true = Some t' /\
     token (login (run calls w)) = Some t').
Proof.
  revert w. induction calls as [|c calls IH]; intros w; [auto|].
  rewrite run_cons.
  destruct (IH (perform c w)) as (Huser & Htoken).
  destruct (perform_keeps_session c w) as (Huser1 & Htoken1).
  split; [congruence|].
  destruct Htoken as [Hsame|(u & t' & Hu & Hfresh & Ht')].
  - rewrite Hsame. done.
  - right. exists u, t'. rewrite <- Huser1. done.
Qed.

(** No reaction of the store sends a request. *)
Lemma call_sent cb s : sent (notices (call cb s)) = sent (notices s).
Proof. rewrite call_ran. simpl. rewrite sent_app. destruct cb; simpl; by rewrite app_nil_r. Qed.

Lemma handleApiError_sent e s :
  sent (notices (handleApiError e s)) = sent (notices s).
Proof.
  unfold handleApiError. destruct (message e); simpl;
    rewrite sent_app; simpl; by rewrite app_nil_r.
Qed.

Lemma created_sent l cb r s :
  sent (notices (created l cb r s)) = sent (notices s).
Proof.
  unfold created. destruct (has_key "name" (json r)); [|done].
  rewrite call_sent. simpl. rewrite sent_app. simpl. by rewrite app_nil_r.
Qed.

Lemma updated_sent l gameId cb r s :
  sent (notices (updated l gameId cb r s)) = sent (notices s).
Proof.
  unfold updated. destruct (status r =? 200); [|done].
  rewrite call_sent. simpl. rewrite !sent_app. simpl. by rewrite !app_nil_r.
Qed.

Lemma destroyed_sent l gameId cb r s :
  sent (notices (destroyed l gameId cb r s)) = sent (notices s).
Proof.
  unfold destroyed. destruct (status r =? 204); [|done].
  rewrite call_sent. simpl. rewrite sent_app. simpl. by rewrite app_nil_r.
Qed.

Lemma fetched_sent r s : sent (notices (fetched r s)) = sent (notices s).
Proof. unfold fetched. by destruct (json r). Qed.

Lemma mutation_failed_sent cb e s :
  sent (notices (mutation_failed cb e s).2) = sent (notices s).
Proof.
  unfold mutation_failed. destruct (code e =? 401); simpl; [done|].
  by rewrite call_sent, handleApiError_sent.
Qed.

Lemma fetch_failed_sent e s :
  sent (notices (fetch_failed e s).2) = sent (notices s).
Proof.
  unfold fetch_failed. destruct (code e =? 401); simpl; [done|].
  by rewrite handleApiError_sent.
Qed.

Lemma unhandled_sent e s :
  sent (notices (notify (UnhandledRejection e) s)) = sent (notices s).
Proof. simpl. rewrite sent_app. simpl. by rewrite app_nil_r. Qed.

(** The requests of a store call that passes the guard. *)
Lemma perform_sent c w u t :
  signed_in (login w) u t ->
  sent (notices (data (perform c w))) =
    (sent (notices (data w)) ++ replicate (requests_of c) (request_of c t))%list.
Proof.
  intros Hin.
  destruct c as [results|body onS onE results|gameId attrs onS onE results
                |gameId onS onE results];
    unfold perform, fetchGames, createGame, updateGame, destroyGame;
    rewrite (guarded_data _ _ _ _ _ w u t) by done; cbv zeta;
    unfold requests_of, request_of.
  - rewrite <- (asked_sent (setGamesLoadingState LOADING) GetGames t
                  (attempts results) (data w)) by done.
    destruct (returned results); [|done].
    apply (then_catch_keeps (fun s => sent (notices s)));
      auto using fetched_sent, fetch_failed_sent, unhandled_sent.
  - rewrite <- (asked_sent id (PostGames body) t
                  (attempts results) (data w)) by done.
    destruct (returned results); [|done].
    apply (then_catch_keeps (fun s => sent (notices s)));
      auto using created_sent, mutation_failed_sent, unhandled_sent.
  - rewrite <- (asked_sent id (PatchGame gameId attrs) t
                  (attempts results) (data w)) by done.
    destruct (returned results); [|done].
    apply (then_catch_keeps (fun s => sent (notices s)));
      auto using updated_sent, mutation_failed_sent, unhandled_sent.
  - rewrite <- (asked_sent id (DeleteGame gameId) t
                  (attempts results) (data w)) by done.
    destruct (returned results); [|done].
    apply (then_catch_keeps (fun s => sent (notices s)));
      auto using destroyed_sent, mutation_failed_sent, unhandled_sent.
Qed.

(** X7: a store call that passes the guard sends its request once, or
    twice when the first call of the API client raised, and both times with
    the token and the arguments it started with: the second request is the
    first one again. *)
Theorem requests_carry_the_held_token c w u t :
  signed_in (login w) u t ->
  sent (notices (data (perform c w))) =
    (sent (notices (data w)) ++ replicate (requests_of c) (request_of c t))%list /\
  (1 <= requests_of c <= 2)%nat.
Proof.
  intros Hin. split; [by apply (perform_sent c w u t)|].
  destruct c as [results|? ? ? results|? ? ? ? results|? ? ? results];
    simpl; destruct results as [|[|] ?]; simpl; lia.
Qed.

Lemma requests_carry_the_held_token_witness :
  sent (notices (data (perform
    (Create (entry 1) None None
       [Raises unauthorized;
        Returns (Fulfilled (mkResponse 201 (named 1 "Y")))])
    alice_world)))
  = [PostGames (entry 1) "stale"; PostGames (entry 1) "stale"].
Proof.
  apply (requests_carry_the_held_token
           (Create (entry 1) None None
              [Raises unauthorized;
               Returns (Fulfilled (mkResponse 201 (named 1 "Y")))])
           alice_world alice "stale").
  repeat split. intros Heq. discriminate Heq.
Defined.

(** ** Failures of a store call *)

Lemma handleApiError_flash e :
  exists flash,
    Flash.type flash = Flash.error /\ Flash.hidden flash = false /\
    forall s, handleApiError e s = notify (SetFlashProps flash) s.
Proof.
  unfold handleApiError. destruct (message e) as [m|l];
    eexists; (split; [|split]); try (intros s; reflexivity); done.
Qed.

(** X8: a create, an update or a delete whose promise is rejected with a
    code other than 401 leaves the collection and the loading state as they
    were, shows exactly one flash, the error flash of [handleApiError], runs
    [onError] and nothing else: no success callback, no modal request, no
    rejection left unhandled. *)
Theorem mutation_failure_is_reported c e w u t :
  signed_in (login w) u t ->
  is_mutation c ->
  call_rejected c e ->
  code e <> 401 ->
  let s' := data (perform c w) in
  games s' = games (data w) /\
  gamesLoadingState s' = gamesLoadingState (data w) /\
  (exists flash,
     Flash.type flash = Flash.error /\ Flash.hidden flash = false /\
     flashes (notices (handleApiError e (data w))) =
       (flashes (notices (data w)) ++ [flash])%list /\
     flashes (notices s') = (flashes (notices (data w)) ++ [flash])%list) /\
  callbacks (notices s') =
    (callbacks (notices (data w)) ++ ran (onError_of c))%list /\
  modals (notices s') = modals (notices (data w)) /\
  unhandled (notices s') = unhandled (notices (data w)).
Proof.
  intros Hin Hmut Hrej Hcode s'. subst s'.
  destruct (handleApiError_flash e) as (flash & Htype & Hhidden & Hflash).
  destruct c as [results|body onS onE results|gameId attrs onS onE results
                |gameId onS onE results]; [done|..];
    unfold perform, createGame, updateGame, destroyGame;
    rewrite (guarded_data _ _ _ _ _ w u t) by done; cbv zeta;
    simpl in Hrej; rewrite Hrej; simpl;
    unfold mutation_failed;
    (destruct (Z.eqb_spec (code e) 401) as [|_]; [done|]);
    rewrite call_ran, !Hflash; simpl;
    match goal with
    | |- context [asked id ?api t ?n (data w)] =>
        destruct (asked_id_untouched api t n (data w))
          as (Hg & Hl & Hf & Hc & Hm);
        pose proof (asked_unhandled id api t n (data w) (fun _ => eq_refl))
          as Hu
    end;
    rewrite !flashes_app, !callbacks_app, !modals_app, !unhandled_app,
      Hf, Hc, Hm, Hu; simpl;
    destruct onE; simpl; rewrite ?app_nil_r;
    (split; [done|]); (split; [done|]);
    (split; [by exists flash|]); done.
Qed.

Lemma mutation_failure_is_reported_witness :
  let c := Update 7 {[ "name" := Str "" ]} (Some "done") (Some "failed")
             [Returns (Rejected (mkApiError 422 (Lines ["Name is blank"])))] in
  games (data (perform c alice_world)) = three_games /\
  callbacks (notices (data (perform c alice_world))) = ["failed"].
Proof.
  destruct (mutation_failure_is_reported
              (Update 7 {[ "name" := Str "" ]} (Some "done") (Some "failed")
                 [Returns (Rejected (mkApiError 422 (Lines ["Name is blank"])))])
              (mkApiError 422 (Lines ["Name is blank"]))
              alice_world alice "stale")
    as (Hgames & _ & _ & Hcalled & _).
  - repeat split. intros Heq. discriminate Heq.
  - exact I.
  - reflexivity.
  - simpl. lia.
  - split; [exact Hgames|exact Hcalled].
Defined.

(** X9: a store call whose promise is rejected with code 401 tells nobody:
    no flash, no callback (not even [onError]), no modal request, the
    collection as it was; the error is thrown again in the reaction and
    stays an unhandled rejection. *)
Theorem unauthorized_rejection_is_dropped c e w u t :
  signed_in (login w) u t ->
  call_rejected c e ->
  code e = 401 ->
  let s' := data (perform c w) in
  games s' = games (data w) /\
  flashes (notices s') = flashes (notices (data w)) /\
  callbacks (notices s') = callbacks (notices (data w)) /\
  modals (notices s') = modals (notices (data w)) /\
  unhandled (notices s') = (unhandled (notices (data w)) ++ [e])%list.
Proof.
  intros Hin Hrej Hcode s'. subst s'.
  destruct c as [results|body onS onE results|gameId attrs onS onE results
                |gameId onS onE results];
    unfold perform, fetchGames, createGame, updateGame, destroyGame;
    rewrite (guarded_data _ _ _ _ _ w u t) by done; cbv zeta;
    simpl in Hrej; rewrite Hrej; simpl;
    unfold mutation_failed, fetch_failed; rewrite Hcode; simpl;
    rewrite !flashes_app, !callbacks_app, !modals_app, !unhandled_app; simpl;
    rewrite !app_nil_r.
  - destruct (asked_quiet (setGamesLoadingState LOADING) GetGames t
                (attempts results) (data w) (fun _ => eq_refl))
      as (-> & -> & ->).
    rewrite asked_loading_games.
    by rewrite (asked_unhandled (setGamesLoadingState LOADING) GetGames t
                  (attempts results) (data w) (fun _ => eq_refl)).
  - destruct (asked_id_untouched (PostGames body) t (attempts results)
                (data w)) as (-> & _ & -> & -> & ->).
    by rewrite (asked_unhandled id (PostGames body) t (attempts results)
                  (data w) (fun _ => eq_refl)).
  - destruct (asked_id_untouched (PatchGame gameId attrs) t
                (attempts results) (data w)) as (-> & _ & -> & -> & ->).
    by rewrite (asked_unhandled id (PatchGame gameId attrs) t
                  (attempts results) (data w) (fun _ => eq_refl)).
  - destruct (asked_id_untouched (DeleteGame gameId) t (attempts results)
                (data w)) as (-> & _ & -> & -> & ->).
    by rewrite (asked_unhandled id (DeleteGame gameId) t (attempts results)
                  (data w) (fun _ => eq_refl)).
Qed.

Lemma unauthorized_rejection_is_dropped_witness :
  let c := Destroy 7 (Some "done") (Some "failed")
             [Returns (Rejected unauthorized)] in
  callbacks (notices (data (perform c alice_world))) = [] /\
  unhandled (notices (data (perform c alice_world))) = [unauthorized].
Proof.
  destruct (unauthorized_rejection_is_dropped
              (Destroy 7 (Some "done") (Some "failed")
                 [Returns (Rejected unauthorized)])
              unauthorized alice_world alice "stale")
    as (_ & _ & Hcalled & _ & Hleft).
  - repeat split. intros Heq. discriminate Heq.
  - reflexivity.
  - reflexivity.
  - split; [exact Hcalled|exact Hleft].
Defined.

(** X10: a load sets the state [LOADING] before it asks, and the state
    stays [LOADING], with the collection as it was, when no list and no
    reportable failure comes back: both calls raised, the promise never
    settles, it is rejected with code 401, or it is fulfilled with a body
    that is not an array. *)
Theorem load_can_stay_loading results w u t :
  signed_in (login w) u t ->
  load_unanswered results ->
  gamesLoadingState (data (fetchGames results w)) = LOADING /\
  games (data (fetchGames results w)) = games (data w).
Proof.
  intros Hin Hun. unfold fetchGames.
  rewrite (guarded_data _ _ _ _ _ w u t) by done. cbv zeta.
  assert (Hloading :
    gamesLoadingState (asked (setGamesLoadingState LOADING) GetGames t
                         (attempts results) (data w)) = LOADING).
  { destruct results as [|[|] ?]; done. }
  unfold load_unanswered in Hun.
  destruct (returned results) as [[r|e|]|]; simpl;
    rewrite ?asked_loading_games; try done.
  - destruct Hun as (o & Ho). unfold fetched. rewrite Ho.
    by rewrite asked_loading_games.
  - unfold fetch_failed. rewrite Hun. simpl.
    by rewrite asked_loading_games.
Qed.

Lemma load_can_stay_loading_witness :
  gamesLoadingState
    (data (fetchGames
             [Returns (Fulfilled
                (mkResponse 200 (Obj {[ "errors" := Strs ["Nope"] ]})))]
             alice_world)) = LOADING.
Proof.
  apply (load_can_stay_loading
           [Returns (Fulfilled
              (mkResponse 200 (Obj {[ "errors" := Strs ["Nope"] ]})))]
           alice_world alice "stale").
  - repeat split. intros Heq. discriminate Heq.
  - simpl. by eexists.
Defined.

(** ** Edges of the update and of the delete *)

(** X11: an update answered with status 200 for an id the collection does
    not hold changes no entry — the assignment at index -1 adds no element
    — and still hides the modal, shows the success flash and runs
    [onSuccess]. *)
Theorem update_of_an_absent_id_reports_success
    gameId attributes onSuccess onError results w u t r :
  signed_in (login w) u t ->
  returned results = Some (Fulfilled r) ->
  status r = 200 ->
  Forall (fun el => id_is gameId el = false) (games (data w)) ->
  let s' :=
    data (updateGame gameId attributes onSuccess onError results w) in
  games s' = games (data w) /\
  flashes (notices s') =
    (flashes (notices (data w)) ++
     [success_flash "Success! Your game has been updated."])%list /\
  callbacks (notices s') =
    (callbacks (notices (data w)) ++ ran onSuccess)%list /\
  modals (notices s') = (modals (notices (data w)) ++ [true])%list.
Proof.
  intros Hin Hret Hstatus Habsent s'. subst s'. unfold updateGame.
  rewrite (guarded_data _ _ _ _ _ w u t) by done. rewrite Hret. simpl.
  unfold updated. rewrite Hstatus. simpl.
  apply findIndex_none in Habsent. rewrite Habsent, assign_negative.
  split; [by rewrite call_ran|].
  exact (applied_notices (data w) _
           (success_flash "Success! Your game has been updated.")
           [true] onSuccess
           (requested_notices (games (data w))
              (PatchGame gameId attributes) t (attempts results) (data w))).
Qed.

Lemma update_of_an_absent_id_reports_success_witness :
  let s' := data (updateGame 8 {[ "name" := Str "X" ]} (Some "done") None
                    [Returns (Fulfilled (mkResponse 200 (named 8 "X")))]
                    alice_world) in
  games s' = three_games /\ callbacks (notices s') = ["done"].
Proof.
  destruct (update_of_an_absent_id_reports_success 8 {[ "name" := Str "X" ]}
              (Some "done") None
              [Returns (Fulfilled (mkResponse 200 (named 8 "X")))]
              alice_world alice "stale" (mkResponse 200 (named 8 "X")))
    as (Hgames & _ & Hcalled & _).
  - repeat split. intros Heq. discriminate Heq.
  - reflexivity.
  - reflexivity.
  - by_evaluation.
  - split; [exact Hgames|exact Hcalled].
Defined.

Lemma length_filter_split (gameId : Z) (l : list Game) :
  length l =
    (length (filter (fun el => id_is gameId el = false) l) +
     length (with_id gameId l))%nat.
Proof.
  unfold with_id. induction l as [|el l IH]; [done|].
  rewrite !filter_cons.
  destruct (id_is gameId el) eqn:Hid;
    destruct (decide (true = false)), (decide (false = true)),
      (decide (true = true)), (decide (false = false));
    simpl; try done; lia.
Qed.

Lemma with_id_filtered (gameId : Z) (l : list Game) :
  with_id gameId (filter (fun el => id_is gameId el = false) l) = [].
Proof.
  unfold with_id. induction l as [|el l IH]; [done|].
  rewrite filter_cons. destruct (decide (id_is gameId el = false)) as [Hid|];
    [|done].
  rewrite filter_cons_False; [done|]. by rewrite Hid.
Qed.

(** X12: a delete answered with status 204 removes every entry with the
    id, however many the collection holds — none, one or several: what is
    left holds no entry with the id, is the old collection with entries
    left out (the others stay, in their order), and is shorter by the number
    of entries that had the id. *)
Theorem destroyGame_removes_every_match
    gameId onSuccess onError results w u t r :
  signed_in (login w) u t ->
  returned results = Some (Fulfilled r) ->
  status r = 204 ->
  let l := games (data w) in
  let l' := games (data (destroyGame gameId onSuccess onError results w)) in
  with_id gameId l' = [] /\
  l' `sublist_of` l /\
  (forall el, el ∈ l -> id_is gameId el = false -> el ∈ l') /\
  length l = (length l' + length (with_id gameId l))%nat.
Proof.
  intros Hin Hret Hstatus. cbv zeta.
  assert (games (data (destroyGame gameId onSuccess onError results w)) =
          filter (fun el => id_is gameId el = false) (games (data w))) as ->.
  { unfold destroyGame.
    rewrite (guarded_data _ _ _ _ _ w u t) by done. rewrite Hret. simpl.
    unfold destroyed. rewrite Hstatus. simpl. by rewrite call_ran. }
  split; [apply with_id_filtered|]. split; [apply sublist_filter|].
  split; [|apply length_filter_split].
  intros el Hel Hid. by apply list_elem_of_filter.
Qed.

Lemma destroyGame_removes_every_match_witness :
  let w := mkWorld alice_session
             (mkStore [entry 7; entry 5; named 7 "X"] DONE []) in
  games (data (destroyGame 7 None None
                 [Returns (Fulfilled (mkResponse 204 ()))] w))
  `sublist_of` [entry 7; entry 5; named 7 "X"] /\
  length (games (data (destroyGame 7 None None
                 [Returns (Fulfilled (mkResponse 204 ()))] w))) = 1%nat.
Proof.
  intros w.
  destruct (destroyGame_removes_every_match 7 None None
              [Returns (Fulfilled (mkResponse 204 ()))]
              w alice "stale" (mkResponse 204 ()))
    as (_ & Hsub & _ & Hlen).
  - repeat split. intros Heq. discriminate Heq.
  - reflexivity.
  - reflexivity.
  - split; [exact Hsub|].
    revert Hlen.
    generalize (length (games (data (destroyGame 7 None None
                  [Returns (Fulfilled (mkResponse 204 ()))] w)))).
    intros n Hlen. change (3 = n + 2)%nat in Hlen. lia.
Defined.

(** ** Calls one after the other *)

Lemma filter_all {A : Type} (P : A -> Prop) `{!forall x, Decision (P x)}
    (l : list A) :
  Forall P l -> filter P l = l.
Proof.
  induction 1 as [|x l Hx _ IH]; [done|].
  by rewrite filter_cons_True, IH.
Qed.

Lemma run_two c1 c2 w : run [c1; c2] w = perform c2 (perform c1 w).
Proof. done. Qed.

(** A call answered at its first attempt leaves the session signed in. *)
Lemma answered_at_once_stays_signed_in
    {R : Type} before api (onFulfilled : R -> Store -> Store) onRejected
    p rest w u t :
  signed_in (login w) u t ->
  signed_in
    (login (guarded before api onFulfilled onRejected (Returns p :: rest) w))
    u t.
Proof.
  intros Hin. by rewrite (guarded_login _ _ _ _ _ w u t).
Qed.

(** X13: creating a game and then deleting it gives the collection back.
    When the create is answered at once with a game whose id no entry of
    the collection has, and the delete of that id is answered with status
    204, the collection after the two calls is the one before them. *)
Theorem create_then_destroy_restores
    body onSuccess1 onError1 r1 rest1 n onSuccess2 onError2 results2 r2
    w u t :
  signed_in (login w) u t ->
  has_key "name" (json r1) = true ->
  game_id (json r1) = Some n ->
  Forall (fun el => id_is n el = false) (games (data w)) ->
  returned results2 = Some (Fulfilled r2) ->
  status r2 = 204 ->
  games (data (run
    [Create body onSuccess1 onError1 (Returns (Fulfilled r1) :: rest1);
     Destroy n onSuccess2 onError2 results2] w))
  = games (data w).
Proof.
  intros Hin Hname Hid Hfresh Hret2 Hstatus2.
  rewrite run_two. unfold perform.
  set (w1 := createGame body onSuccess1 onError1
               (Returns (Fulfilled r1) :: rest1) w).
  assert (Hin1 : signed_in (login w1) u t)
    by (by apply answered_at_once_stays_signed_in).
  assert (Hgames1 : games (data w1) = json r1 :: games (data w)).
  { subst w1. unfold createGame.
    rewrite (guarded_data _ _ _ _ _ w u t) by done. simpl.
    unfold created. by rewrite Hname, call_ran. }
  clearbody w1. unfold destroyGame.
  rewrite (guarded_data _ _ _ _ _ w1 u t) by done. rewrite Hret2. simpl.
  unfold destroyed. rewrite Hstatus2. simpl. rewrite call_ran. simpl.
  rewrite Hgames1. apply id_is_game_id in Hid.
  rewrite filter_cons_False by (by rewrite Hid).
  by apply filter_all.
Qed.

Lemma create_then_destroy_restores_witness :
  games (data (run
    [Create (named 0 "Y") None None
       [Returns (Fulfilled (mkResponse 201 (named 3 "Y")))];
     Destroy 3 None None [Returns (Fulfilled (mkResponse 204 ()))]]
    alice_world))
  = three_games.
Proof.
  apply (create_then_destroy_restores (named 0 "Y") None None
           (mkResponse 201 (named 3 "Y")) [] 3 None None
           [Returns (Fulfilled (mkResponse 204 ()))] (mkResponse 204 ())
           alice_world alice "stale").
  - repeat split. intros Heq. discriminate Heq.
  - by vm_compute.
  - by vm_compute.
  - by_evaluation.
  - reflexivity.
  - reflexivity.
Defined.

Lemma findIndex_assign {A : Type} (p : A -> bool) (v : A) (l : list A) :
  p v = true ->
  findIndex p (assign (findIndex p l) v l) = findIndex p l.
Proof.
  intros Hv. pose proof (findIndex_lt_length p l) as Hrange.
  destruct (decide (findIndex p l = -1)) as [Hnone|Hsome].
  { by rewrite Hnone, assign_negative. }
  assert (findIndex p l = Z.of_nat (Z.to_nat (findIndex p l))) as Hi by lia.
  rewrite Hi at 1 2. rewrite assign_at.
  set (i := Z.to_nat (findIndex p l)) in *.
  pose proof Hi as Hfirst.
  apply findIndex_first in Hfirst as (x & Hx & Hpx & Hbefore).
  apply findIndex_first. exists v. split; [|split; [done|]].
  - apply list_lookup_insert_eq. by eapply lookup_lt_Some.
  - intros j y Hj Hy. rewrite list_lookup_insert_ne in Hy by lia.
    by eapply Hbefore.
Qed.

Lemma assign_assign {A : Type} index (v1 v2 : A) (l : list A) :
  assign index v2 (assign index v1 l) = assign index v2 l.
Proof.
  unfold assign. destruct (index <? 0); [done|].
  apply list_insert_insert_eq.
Qed.

(** X14: the last update wins.  Two updates of one id, the first answered
    at once with status 200 and a body under that id, leave the collection
    a single update with the second answer would leave: nothing of the
    first answer stays. *)
Theorem last_update_wins
    gameId attributes1 onSuccess1 onError1 r1 rest1
    attributes2 onSuccess2 onError2 results2 r2 w u t :
  signed_in (login w) u t ->
  status r1 = 200 ->
  game_id (json r1) = Some gameId ->
  returned results2 = Some (Fulfilled r2) ->
  status r2 = 200 ->
  games (data (run
    [Update gameId attributes1 onSuccess1 onError1
       (Returns (Fulfilled r1) :: rest1);
     Update gameId attributes2 onSuccess2 onError2 results2] w))
  = games (data (updateGame gameId attributes2 onSuccess2 onError2
                   results2 w)).
Proof.
  intros Hin Hstatus1 Hid1 Hret2 Hstatus2.
  rewrite run_two. unfold perform.
  set (w1 := updateGame gameId attributes1 onSuccess1 onError1
               (Returns (Fulfilled r1) :: rest1) w).
  assert (Hin1 : signed_in (login w1) u t)
    by (by apply answered_at_once_stays_signed_in).
  assert (Hgames1 :
    games (data w1) =
      assign (findIndex (id_is gameId) (games (data w))) (json r1)
        (games (data w))).
  { subst w1. unfold updateGame.
    rewrite (guarded_data _ _ _ _ _ w u t) by done. simpl.
    unfold updated. by rewrite Hstatus1, call_ran. }
  clearbody w1. unfold updateGame.
  rewrite (guarded_data _ _ _ _ _ w1 u t) by done.
  rewrite (guarded_data _ _ _ _ _ w u t) by done.
  rewrite Hret2. simpl. unfold updated. rewrite Hstatus2. simpl.
  rewrite !call_ran. simpl. rewrite Hgames1.
  apply id_is_game_id in Hid1.
  by rewrite findIndex_assign, assign_assign.
Qed.

Lemma last_update_wins_witness :
  games (data (run
    [Update 7 {[ "name" := Str "X" ]} None None
       [Returns (Fulfilled (mkResponse 200 (named 7 "X")))];
     Update 7 {[ "name" := Str "Z" ]} None None
       [Returns (Fulfilled (mkResponse 200 (named 7 "Z")))]]
    alice_world))
  = games (data (updateGame 7 {[ "name" := Str "Z" ]} None None
                   [Returns (Fulfilled (mkResponse 200 (named 7 "Z")))]
                   alice_world)).
Proof.
  apply (last_update_wins 7 {[ "name" := Str "X" ]} None None
           (mkResponse 200 (named 7 "X")) []
           {[ "name" := Str "Z" ]} None None
           [Returns (Fulfilled (mkResponse 200 (named 7 "Z")))]
           (mkResponse 200 (named 7 "Z")) alice_world alice "stale").
  - repeat split. intros Heq. discriminate Heq.
  - reflexivity.
  - by vm_compute.
  - reflexivity.
  - reflexivity.
Defined.

(** ** What no answer can do *)

(** X15: an update never changes which ids the collection holds nor their
    order, whatever comes back — a failure, another status, no answer —
    as long as a body that comes with status 200 carries the id that was
    asked for. *)
Theorem update_keeps_the_ids
    gameId attributes onSuccess onError results w :
  (forall r, returned results = Some (Fulfilled r) -> status r = 200 ->
     game_id (json r) = Some gameId) ->
  ids (games (data (updateGame gameId attributes onSuccess onError
                      results w)))
  = ids (games (data w)).
Proof.
  intros Hsame. unfold updateGame.
  destruct (guarded_cases id (PatchGame gameId attributes)
              (updated (games (data w)) gameId onSuccess)
              (mutation_failed onError) results w)
    as [->|(u & t & p & Hin & Hp & ->)]; [done|].
  destruct p as [r|e|].
  - destruct Hp as [|Hret]; [done|].
    simpl. unfold updated. destruct (Z.eqb_spec (status r) 200) as [H200|_].
    + rewrite call_ran. simpl. apply ids_assign. by apply Hsame.
    + by rewrite asked_id_games.
  - by rewrite mutation_failed_games, asked_id_games.
  - by rewrite then_catch_unsettled, asked_id_games.
Qed.

Lemma update_keeps_the_ids_witness :
  ids (games (data (updateGame 7 {[ "name" := Str "X" ]} None None
                      [Returns (Fulfilled (mkResponse 200 (named 7 "X")))]
                      alice_world)))
  = [5; 7; 9].
Proof.
  apply (update_keeps_the_ids 7 {[ "name" := Str "X" ]} None None
           [Returns (Fulfilled (mkResponse 200 (named 7 "X")))] alice_world).
  intros r Hr _. injection Hr as <-. by vm_compute.
Defined.

Lemma call_loading cb s :
  gamesLoadingState (call cb s) = gamesLoadingState s.
Proof. by rewrite call_ran. Qed.

Lemma mutation_failed_loading cb e s :
  gamesLoadingState (mutation_failed cb e s).2 = gamesLoadingState s.
Proof.
  unfold mutation_failed. destruct (code e =? 401); simpl; [done|].
  rewrite call_loading. unfold handleApiError. by destruct (message e).
Qed.

(** X16: a create, an update or a delete never changes the loading state,
    whatever the session and whatever the answer. *)
Theorem mutations_leave_the_loading_state c w :
  is_mutation c ->
  gamesLoadingState (data (perform c w)) = gamesLoadingState (data w).
Proof.
  intros Hmut.
  destruct c as [results|body onS onE results|gameId attrs onS onE results
                |gameId onS onE results]; [done|..];
    unfold perform, createGame, updateGame, destroyGame;
    match goal with
    | |- context [guarded ?b ?a ?f ?g ?rs w] =>
        destruct (guarded_cases b a f g rs w)
          as [->|(u & t & p & Hin & Hp & ->)]; [done|]
    end;
    rewrite (then_catch_keeps gamesLoadingState);
    try (by apply asked_loading);
    try (intros; apply mutation_failed_loading); try done.
  - intros r s. unfold created. destruct (has_key "name" (json r)); [|done].
    by rewrite call_loading.
  - intros r s. unfold updated. destruct (status r =? 200); [|done].
    by rewrite call_loading.
  - intros r s. unfold destroyed. destruct (status r =? 204); [|done].
    by rewrite call_loading.
Qed.

Lemma mutations_leave_the_loading_state_witness :
  gamesLoadingState
    (data (perform
       (Create (entry 1) None None
          [Returns (Rejected (mkApiError 500 (Text "Down")))])
       alice_world)) = DONE.
Proof.
  apply (mutations_leave_the_loading_state
           (Create (entry 1) None None
              [Returns (Rejected (mkApiError 500 (Text "Down")))])
           alice_world).
  exact I.
Defined.

(** X17: the length of the collection after a store call, whatever the
    session and whatever the answer: a create adds one entry at most and
    removes none, an update keeps the length, a delete adds no entry. *)
Theorem collection_length_is_bounded w :
  (forall body onSuccess onError results,
     let n := length (games (data (createGame body onSuccess onError
                                     results w))) in
     (length (games (data w)) <= n <= S (length (games (data w))))%nat) /\
  (forall gameId attributes onSuccess onError results,
     length (games (data (updateGame gameId attributes onSuccess onError
                            results w)))
     = length (games (data w))) /\
  (forall gameId onSuccess onError results,
     (length (games (data (destroyGame gameId onSuccess onError results w)))
      <= length (games (data w)))%nat).
Proof.
  split; [|split].
  - intros body onS onE results n. subst n. unfold createGame.
    destruct (guarded_cases id (PostGames body)
                (created (games (data w)) onS) (mutation_failed onE)
                results w)
      as [->|(u & t & p & Hin & Hp & ->)]; [lia|].
    destruct p as [r|e|];
      [|rewrite mutation_failed_games, asked_id_games; lia
       |rewrite then_catch_unsettled, asked_id_games; lia].
    simpl. unfold created. destruct (has_key "name" (json r)).
    + rewrite call_ran. simpl. lia.
    + rewrite asked_id_games. lia.
  - intros gameId attrs onS onE results. unfold updateGame.
    destruct (guarded_cases id (PatchGame gameId attrs)
                (updated (games (data w)) gameId onS) (mutation_failed onE)
                results w)
      as [->|(u & t & p & Hin & Hp & ->)]; [done|].
    destruct p as [r|e|];
      [|by rewrite mutation_failed_games, asked_id_games
       |by rewrite then_catch_unsettled, asked_id_games].
    simpl. unfold updated. destruct (status r =? 200).
    + rewrite call_ran. simpl. apply length_assign.
    + by rewrite asked_id_games.
  - intros gameId onS onE results. unfold destroyGame.
    destruct (guarded_cases id (DeleteGame gameId)
                (destroyed (games (data w)) gameId onS) (mutation_failed onE)
                results w)
      as [->|(u & t & p & Hin & Hp & ->)]; [lia|].
    destruct p as [r|e|];
      [|rewrite mutation_failed_games, asked_id_games; lia
       |rewrite then_catch_unsettled, asked_id_games; lia].
    simpl. unfold destroyed. destruct (status r =? 204).
    + rewrite call_ran. simpl. apply length_filter.
    + rewrite asked_id_games. lia.
Qed.

(** ** Calls that overlap *)

Lemma issued_stays_signed_in {R : Type} before api
    (results : list (ApiResult R)) w u t :
  signed_in (login w) u t ->
  signed_in (login (after (issue before api results w))) u t.
Proof.
  intros Hin. destruct (issue_after before api results w u t Hin)
    as (_ & _ & Hu & Ht).
  by destruct Hin as (_ & _ & Hne).
Qed.

(** X18: two creates that overlap lose the first game.  Both calls are
    made before either answer arrives, both are answered with a game, both
    show their success flash and run their [onSuccess]; yet each reaction
    builds the collection from the array its call closed over, so the
    collection ends as the second game in front of the old entries: the
    first game is in no position. *)
Theorem overlapping_creates_lose_the_first
    body1 onSuccess1 onError1 results1 r1
    body2 onSuccess2 onError2 results2 r2 w u t :
  signed_in (login w) u t ->
  returned results1 = Some (Fulfilled r1) ->
  has_key "name" (json r1) = true ->
  returned results2 = Some (Fulfilled r2) ->
  has_key "name" (json r2) = true ->
  let s' := data (two_creates body1 onSuccess1 onError1 results1
                    body2 onSuccess2 onError2 results2 w) in
  games s' = json r2 :: games (data w) /\
  flashes (notices s') =
    (flashes (notices (data w)) ++
     [success_flash "Success! Your game has been created.";
      success_flash "Success! Your game has been created."])%list /\
  callbacks (notices s') =
    (callbacks (notices (data w)) ++ ran onSuccess1 ++ ran onSuccess2)%list.
Proof.
  intros Hin Hret1 Hname1 Hret2 Hname2 s'. subst s'. unfold two_creates.
  pose proof (issued_stays_signed_in id (PostGames body1) results1 w u t Hin)
    as Hin1.
  destruct (issue_after id (PostGames body1) results1 w u t Hin)
    as (Hd1 & Hp1 & _).
  destruct (issue_after id (PostGames body2) results2
              (after (issue id (PostGames body1) results1 w)) u t Hin1)
    as (Hd2 & Hp2 & _).
  set (i1 := issue id (PostGames body1) results1 w) in *.
  set (i2 := issue id (PostGames body2) results2 (after i1)) in *.
  clearbody i2. clearbody i1.
  unfold respond, refresh_answered. simpl.
  rewrite Hp1, Hp2, Hret1, Hret2. simpl.
  unfold created. rewrite Hname1, Hname2, !call_ran. simpl.
  rewrite Hd2, Hd1, !asked_id. simpl.
  split; [done|].
  rewrite !flashes_app, !callbacks_app.
  destruct (sent_quiet (PostGames body1 t) (attempts results1))
    as (-> & -> & _).
  destruct (sent_quiet (PostGames body2 t) (attempts results2))
    as (-> & -> & _).
  destruct onSuccess1, onSuccess2; simpl; by rewrite ?app_nil_r, <- ?app_assoc.
Qed.

Lemma overlapping_creates_lose_the_first_witness :
  games (data (two_creates
    (named 0 "Y") None None
    [Returns (Fulfilled (mkResponse 201 (named 3 "Y")))]
    (named 0 "Z") None None
    [Returns (Fulfilled (mkResponse 201 (named 4 "Z")))]
    alice_world))
  = [named 4 "Z"; entry 5; entry 7; entry 9].
Proof.
  apply (overlapping_creates_lose_the_first
           (named 0 "Y") None None
           [Returns (Fulfilled (mkResponse 201 (named 3 "Y")))]
           (mkResponse 201 (named 3 "Y"))
           (named 0 "Z") None None
           [Returns (Fulfilled (mkResponse 201 (named 4 "Z")))]
           (mkResponse 201 (named 4 "Z"))
           alice_world alice "stale").
  - repeat split. intros Heq. discriminate Heq.
  - reflexivity.
  - by vm_compute.
  - reflexivity.
  - by vm_compute.
Defined.

(** X19: a delete and a create that overlap bring the deleted entries
    back.  The delete is answered first with status 204 and shows its
    success flash; the create, called before that answer, is then answered
    with a game and puts it in front of the array it closed over, in which
    the deleted entries still are. *)
Theorem overlapping_create_restores_the_deleted
    gameId onSuccess1 onError1 results1 r1
    body2 onSuccess2 onError2 results2 r2 w u t :
  signed_in (login w) u t ->
  returned results1 = Some (Fulfilled r1) ->
  status r1 = 204 ->
  returned results2 = Some (Fulfilled r2) ->
  has_key "name" (json r2) = true ->
  let s' := data (destroy_then_create gameId onSuccess1 onError1 results1
                    body2 onSuccess2 onError2 results2 w) in
  games s' = json r2 :: games (data w) /\
  flashes (notices s') =
    (flashes (notices (data w)) ++
     [success_flash "Success! Your game has been deleted.";
      success_flash "Success! Your game has been created."])%list.
Proof.
  intros Hin Hret1 Hstatus1 Hret2 Hname2 s'. subst s'.
  unfold destroy_then_create.
  pose proof (issued_stays_signed_in id (DeleteGame gameId) results1 w u t Hin)
    as Hin1.
  destruct (issue_after id (DeleteGame gameId) results1 w u t Hin)
    as (Hd1 & Hp1 & _).
  destruct (issue_after id (PostGames body2) results2
              (after (issue id (DeleteGame gameId) results1 w)) u t Hin1)
    as (Hd2 & Hp2 & _).
  set (i1 := issue id (DeleteGame gameId) results1 w) in *.
  set (i2 := issue id (PostGames body2) results2 (after i1)) in *.
  clearbody i2. clearbody i1.
  unfold respond, refresh_answered. simpl.
  rewrite Hp1, Hp2, Hret1, Hret2. simpl.
  unfold created, destroyed. rewrite Hstatus1, Hname2, !call_ran. simpl.
  rewrite Hd2, Hd1, !asked_id. simpl.
  split; [done|].
  rewrite !flashes_app.
  destruct (sent_quiet (DeleteGame gameId t) (attempts results1))
    as (-> & _ & _).
  destruct (sent_quiet (PostGames body2 t) (attempts results2))
    as (-> & _ & _).
  destruct onSuccess1, onSuccess2; simpl; by rewrite ?app_nil_r, <- ?app_assoc.
Qed.

Lemma overlapping_create_restores_the_deleted_witness :
  games (data (destroy_then_create
    7 None None [Returns (Fulfilled (mkResponse 204 ()))]
    (named 0 "Z") None None
    [Returns (Fulfilled (mkResponse 201 (named 4 "Z")))]
    alice_world))
  = [named 4 "Z"; entry 5; entry 7; entry 9].
Proof.
  apply (overlapping_create_restores_the_deleted
           7 None None [Returns (Fulfilled (mkResponse 204 ()))]
           (mkResponse 204 ())
           (named 0 "Z") None None
           [Returns (Fulfilled (mkResponse 201 (named 4 "Z")))]
           (mkResponse 201 (named 4 "Z"))
           alice_world alice "stale").
  - repeat split. intros Heq. discriminate Heq.
  - reflexivity.
  - reflexivity.
  - reflexivity.
  - by vm_compute.
Defined.

(** ** The effects of the two providers *)

(** X20: the effect of the login provider on a change of user or of auth
    error never changes the user and never clears a stored token, not even
    when the user is gone or an auth error signs out.  An auth error signs
    out once and does not stop the effect: with a user present the token
    is refreshed all the same and the answer is stored. *)
Theorem identity_effect_never_clears_the_token authError s :
  let s' := identity_changed authError s in
  user s' = user s /\
  (is_Some (token s) -> is_Some (token s')) /\
  (user s = None -> token s' = token s) /\
  sign_outs (effects s') =
    (sign_outs (effects s) + if authError then 1 else 0)%nat /\
  (forall u t', user s = Some u -> getIdToken u true = Some t' ->
     token s' = Some t' /\
     refreshes (effects s') = S (refreshes (effects s))).
Proof.
  unfold identity_changed, identity_effect.
  destruct authError; simpl;
    (destruct (user s) as [u|] eqn:Hu; simpl;
      [destruct (getIdToken u true) as [t'|] eqn:Hfresh; simpl|]);
    rewrite ?sign_outs_app, ?refreshes_app;
    (split; [done|]);
    (split; [by eauto|]);
    (split; [done|]);
    (split; [unfold sign_outs; simpl; lia|]);
    intros u0 t0 Hu0 Ht0; try done;
    injection Hu0 as <-; rewrite Hfresh in Ht0; try done;
    injection Ht0 as <-;
    (split; [done|]); unfold refreshes; simpl; lia.
Qed.

Lemma identity_effect_never_clears_the_token_witness :
  sign_outs (effects (identity_changed true alice_session)) = 1%nat /\
  token (identity_changed true alice_session) = Some "fresh" /\
  token (identity_changed true (mkSession None (Some "stale") []))
    = Some "stale".
Proof.
  destruct (identity_effect_never_clears_the_token true alice_session)
    as (_ & _ & _ & Hout & Hfresh).
  destruct (identity_effect_never_clears_the_token true
              (mkSession None (Some "stale") []))
    as (_ & _ & Hkept & _).
  split; [exact Hout|].
  split; [exact (proj1 (Hfresh alice "fresh" eq_refl eq_refl))|].
  exact (Hkept eq_refl).
Defined.

(** X21: the load effect of the games provider asks the API only with a
    whole session.  While auth is loading, without a token, or with a token
    but no user, it leaves both providers as they were — the state is not
    even set to [LOADING]; in particular a visitor [requireLogin] sends
    home loads nothing.  Otherwise it sends the list request with the token
    held and the state is [LOADING] until an answer comes. *)
Theorem load_effect_needs_a_session authLoading results w :
  (authLoading = true \/ user (login w) = None \/
   no_token (token (login w)) = true ->
   load_effect authLoading results w = w) /\
  (requireLogin authLoading (login w) = true ->
   load_effect authLoading results w = w) /\
  (forall u t, authLoading = false -> signed_in (login w) u t ->
   requireLogin authLoading (login w) = false /\
   sent (notices (data (load_effect authLoading results w))) =
     (sent (notices (data w)) ++
      replicate (attempts results) (GetGames t))%list /\
   (returned results = Some Unsettled ->
    gamesLoadingState (data (load_effect authLoading results w)) = LOADING)).
Proof.
  assert (Hskip : authLoading = true \/ user (login w) = None \/
                  no_token (token (login w)) = true ->
                  load_effect authLoading results w = w).
  { unfold load_effect. intros [->|[Hnone|Hempty]]; [done| |].
    - destruct (authLoading || no_token (token (login w))); [done|].
      apply guarded_skipped. by rewrite Hnone.
    - rewrite Hempty. by rewrite orb_true_r. }
  split; [done|]. split.
  - unfold requireLogin. intros Hhome.
    apply andb_true_iff in Hhome as [Hnone _]. apply Hskip. right. left.
    by destruct (user (login w)).
  - unfold load_effect, requireLogin. intros u t -> Hin.
    pose proof (signed_in_guard _ _ _ Hin) as Hguard.
    apply orb_false_iff in Hguard as [-> ->]. cbn [orb andb].
    split; [done|]. split.
    + exact (perform_sent (Load results) w u t Hin).
    + intros Hret. unfold fetchGames.
      rewrite (guarded_data _ _ _ _ _ w u t) by done. rewrite Hret. simpl.
      destruct results as [|[|] ?]; done.
Qed.

Lemma load_effect_needs_a_session_witness :
  let w := mkWorld (mkSession None (Some "stale") [])
             (mkStore three_games DONE []) in
  load_effect false [Returns Unsettled] w = w /\
  gamesLoadingState (data (load_effect false [Returns Unsettled] alice_world))
  = LOADING.
Proof.
  intros w. split.
  - apply (proj1 (load_effect_needs_a_session false [Returns Unsettled] w)).
    right. left. reflexivity.
  - apply (proj2 (proj2 (load_effect_needs_a_session false
                           [Returns Unsettled] alice_world)) alice "stale").
    + reflexivity.
    + repeat split. intros Heq. discriminate Heq.
    + reflexivity.
Defined.

(** X22: from signing in to a loaded collection.  After the login effect
    for a user whose refresh is answered with a token that is not empty,
    the load effect, once auth has stopped loading, replaces the collection
    by the list the API answers with and sets the state [DONE]; the request
    carries the token just stored. *)
Theorem sign_in_then_load authError s u t' d results r l :
  user s = Some u ->
  getIdToken u true = Some t' ->
  t' <> "" ->
  returned results = Some (Fulfilled r) ->
  json r = Arr l ->
  let w' := load_effect false results
              (mkWorld (identity_changed authError s) d) in
  games (data w') = l /\
  gamesLoadingState (data w') = DONE /\
  sent (notices (data w')) =
    (sent (notices d) ++ replicate (attempts results) (GetGames t'))%list.
Proof.
  intros Hu Hfresh Hne Hret Hjson w'. subst w'.
  set (w := mkWorld (identity_changed authError s) d).
  assert (Hin : signed_in (login w) u t').
  { subst w. unfold identity_changed, identity_effect.
    destruct authError; simpl; rewrite Hu; simpl; rewrite Hfresh;
      by repeat split. }
  assert (Hd : data w = d) by done.
  clearbody w. unfold load_effect.
  pose proof (signed_in_guard _ _ _ Hin) as Hguard.
  apply orb_false_iff in Hguard as [_ ->]. cbn [orb].
  split; [|split].
  - unfold fetchGames. rewrite (guarded_data _ _ _ _ _ w u t') by done.
    rewrite Hret. simpl. unfold fetched. by rewrite Hjson.
  - unfold fetchGames. rewrite (guarded_data _ _ _ _ _ w u t') by done.
    rewrite Hret. simpl. unfold fetched. by rewrite Hjson.
  - rewrite <- Hd. exact (perform_sent (Load results) w u t' Hin).
Qed.

Lemma sign_in_then_load_witness :
  let w' := load_effect false
              [Returns (Fulfilled (mkResponse 200 (Arr [entry 2; entry 1])))]
              (mkWorld (identity_changed false
                          (mkSession (Some alice) None []))
                 (mkStore [] LOADING [])) in
  games (data w') = [entry 2; entry 1] /\
  gamesLoadingState (data w') = DONE /\
  sent (notices (data w')) = [GetGames "fresh"].
Proof.
  apply (sign_in_then_load false (mkSession (Some alice) None []) alice
           "fresh" (mkStore [] LOADING [])
           [Returns (Fulfilled (mkResponse 200 (Arr [entry 2; entry 1])))]
           (mkResponse 200 (Arr [entry 2; entry 1])) [entry 2; entry 1]).
  - reflexivity.
  - reflexivity.
  - intros Heq. discriminate Heq.
  - reflexivity.
  - reflexivity.
Defined.

(** ** The retry against a rejected promise *)

Section RetryRejected.

Context {R : Type}.
Variables (before : Store -> Store) (api : string -> Request).
Variables (onFulfilled : R -> Store -> Store).
Variables (onRejected : ApiError -> Store -> Completion * Store).
Hypothesis before_quiet : forall s, notices (before s) = notices s.
Hypothesis rethrows :
  forall e s, code e = 401 -> onRejected e s = (Throw e, s).

Lemma guarded_retry_rejected e1 e2 rest w u t :
  signed_in (login w) u t ->
  code e2 = 401 ->
  let w' := guarded before api onFulfilled onRejected
              (Raises e1 :: Returns (Rejected e2) :: rest) w in
  sign_outs (effects (login w')) = sign_outs (effects (login w)) /\
  refreshes (effects (login w')) = S (refreshes (effects (login w))) /\
  invocations (effects (login w')) =
    (invocations (effects (login w)) ++ [t; t])%list /\
  flashes (notices (data w')) = flashes (notices (data w)) /\
  callbacks (notices (data w')) = callbacks (notices (data w)) /\
  unhandled (notices (data w')) = (unhandled (notices (data w)) ++ [e2])%list.
Proof.
  intros Hin Hcode w'. subst w'.
  rewrite (guarded_login _ _ _ _ _ w u t) by done.
  rewrite (guarded_data _ _ _ _ _ w u t) by done.
  split; [|split; [|split]].
  - destruct (getIdToken u true); simpl;
      rewrite !sign_outs_app; unfold sign_outs; simpl; lia.
  - destruct (getIdToken u true); simpl;
      rewrite !refreshes_app; unfold refreshes; simpl; lia.
  - destruct (getIdToken u true); simpl;
      rewrite !invocations_app; simpl;
      by rewrite ?app_nil_r, <- !app_assoc.
  - cbv zeta.
    destruct (asked_quiet before api t
                (attempts (Raises e1 :: Returns (Rejected e2) :: rest))
                (data w) before_quiet) as (Hf & Hc & _).
    pose proof (asked_unhandled before api t
                  (attempts (Raises e1 :: Returns (Rejected e2) :: rest))
                  (data w) before_quiet) as Hu.
    revert Hf Hc Hu.
    generalize (asked before api t
                  (attempts (Raises e1 :: Returns (Rejected e2) :: rest))
                  (data w)).
    intros s0 Hf Hc Hu. simpl. rewrite rethrows by done. simpl.
    rewrite flashes_app, callbacks_app, unhandled_app, Hf, Hc, Hu. simpl.
    by rewrite !app_nil_r.
Qed.

End RetryRejected.

(** C3, as the code has it: when the first call of a store operation
    raises the error of code 401 and the retry that follows the refresh is
    answered with a promise rejected with code 401, the store shows no
    flash and runs no callback for that call — the [.catch] throws the
    error again before [handleApiError] — but nobody is signed out: the
    error thrown in the reaction does not reach the [catch] of the loop and
    stays an unhandled rejection.  One token was asked for and the
    operation was called twice. *)
Theorem rejected_retry_signs_nobody_out c e1 e2 w u t :
  signed_in (login w) u t ->
  retry_of_call_rejected c e1 e2 ->
  code e1 = 401 ->
  code e2 = 401 ->
  sign_outs (effects (login (perform c w))) = sign_outs (effects (login w)) /\
  refreshes (effects (login (perform c w))) =
    S (refreshes (effects (login w))) /\
  invocations (effects (login (perform c w))) =
    (invocations (effects (login w)) ++ [t; t])%list /\
  flashes (notices (data (perform c w))) = flashes (notices (data w)) /\
  callbacks (notices (data (perform c w))) = callbacks (notices (data w)) /\
  unhandled (notices (data (perform c w))) =
    (unhandled (notices (data w)) ++ [e2])%list.
Proof.
  intros Hin Hretry _ Hcode.
  destruct c as [results|body onS onE results|gameId attrs onS onE results
                |gameId onS onE results];
    unfold retry_of_call_rejected, retry_rejected in Hretry;
    (destruct results as [|[e1'|p1] [|[e2'|[r|e2'|]] rest]]; try done);
    destruct Hretry as [-> ->];
    unfold perform, fetchGames, createGame, updateGame, destroyGame;
    match goal with
    | |- context [guarded ?b ?a ?f ?g _ w] =>
        apply (guarded_retry_rejected b a f g) with (u := u)
    end; try done;
    intros e s He;
    first [by apply mutation_failed_401 | by apply fetch_failed_401].
Qed.

Lemma rejected_retry_signs_nobody_out_witness :
  let c := Create (entry 1) (Some "done") (Some "failed")
             [Raises unauthorized; Returns (Rejected unauthorized)] in
  sign_outs (effects (login (perform c alice_world))) = 0%nat /\
  invocations (effects (login (perform c alice_world))) =
    ["stale"; "stale"] /\
  flashes (notices (data (perform c alice_world))) = [] /\
  unhandled (notices (data (perform c alice_world))) = [unauthorized].
Proof.
  destruct (rejected_retry_signs_nobody_out
              (Create (entry 1) (Some "done") (Some "failed")
                 [Raises unauthorized; Returns (Rejected unauthorized)])
              unauthorized unauthorized alice_world alice "stale")
    as (Hout & _ & Hcalls & Hflash & _ & Hleft).
  - repeat split. intros Heq. discriminate Heq.
  - simpl. split; reflexivity.
  - reflexivity.
  - reflexivity.
  - split; [exact Hout|]. split; [exact Hcalls|].
    split; [exact Hflash|exact Hleft].
Defined.
